(** * Exclusion Mutuelle: a mutex runner on top of Redlock

    A shallow embedding of [src/index.js] (the [initialize]/[run] pair) and of
    the error classes under [src/errors/], followed by the properties of the
    runner's life cycle: validation, acquisition, the extension timer,
    cancellation, release and the classification of the terminal outcome.

    Modelling choices.
    - JavaScript numbers that hold milliseconds and counters are integers
      ([Z]): the arithmetic and the decimal rendering are those of the code
      for the integers a double holds exactly, below [2^53].  Objects are a
      prototype tag with an ordered list of own properties.
    - The promise returned by [run] is followed through its life by a state
      machine.  Everything the outside world decides (when a Redlock promise
      settles and how, when the timer fires, when the task's promise settles
      or is cancelled from the task's side, when Bluebird runs the [finally]
      handler) is an [Event]; everything the runner does to the outside
      world (calls on the lock client, on the timer and on the task) is an
      [Action] entered in a log.  Events come in any order; one that cannot
      happen in the current state (a tick of a timer that is not armed, a
      second settlement of a promise, the [finally] handler of a pending
      promise) leaves the state as it is.  A property of [run] is a property
      of every event sequence.
    - The log lists the calls in the order in which they are made.  What
      Bluebird calls from its queue (the mapper of a [Bluebird.map], one turn
      of the queue after the map is made; the handler of a promise that has
      settled) enters the log when it is queued.  Nothing of the same call
      of [run] can come in between, with one exception: the extension round
      of a tick that fires when [deferred] is no longer pending is queued
      behind the [finally] handler, and [clearInterval], which the handler
      calls itself, is made ahead of it.
    - The lock client is asynchronous: [lock], [extend] and [unlock] return
      promises that settle later with a value or with an error object, as
      Redlock's do.  [Bluebird.map] over such promises calls its mapper on
      every element, in order, and settles with the first rejection or with
      all the values.
    - Calls to [debug] are diagnostic and are left out of the log. *)

From stdpp Require Import base list strings pretty numbers.

Open Scope Z_scope.

#[local] Set Warnings "-register-all".

(** ** JavaScript values *)

Module Js.

(** The prototypes that [instanceof] can tell apart in this program. *)
Inductive Proto :=
| ObjectProto
| ErrorProto
| LockErrorProto
| ExtendLockErrorProto
| UnlockErrorProto.

Inductive Value :=
| Undefined
| Null
| Bool (b : bool)
| Num (n : Z)
| Str (s : string)
| Arr (xs : list Value)
| Obj (p : Proto) (ps : list (string * Value)).

Definition Props := list (string * Value).

(** An object held by reference: what a rejection of the lock client
    carries, and what the variable [extendLockError] holds. *)
Record Object := mkObject { proto : Proto; props : Props }.

Definition ref (o : Object) : Value := Obj (proto o) (props o).

Fixpoint own (k : string) (ps : Props) : option Value :=
  match ps with
  | [] => None
  | (k', v) :: r => if String.eqb k k' then Some v else own k r
  end.

(** Properties found on the prototype chain when they are not own:
    [Error.prototype.name] and [Error.prototype.message]. *)
Definition inherited (p : Proto) (k : string) : Value :=
  match p with
  | ObjectProto => Undefined
  | _ => if String.eqb k "name" then Str "Error"
         else if String.eqb k "message" then Str ""
         else Undefined
  end.

(** [o.k] *)
Definition get (o : Object) (k : string) : Value :=
  match own k (props o) with
  | Some v => v
  | None => inherited (proto o) k
  end.

Fixpoint put (k : string) (v : Value) (ps : Props) : Props :=
  match ps with
  | [] => [(k, v)]
  | (k', v') :: r =>
      if String.eqb k k' then (k, v) :: r else (k', v') :: put k v r
  end.

(** [o.k = v] *)
Definition set (o : Object) (k : string) (v : Value) : Object :=
  {| proto := proto o; props := put k v (props o) |}.

(** Truthiness, as [||] tests it. *)
Definition truthy (v : Value) : bool :=
  match v with
  | Undefined | Null => false
  | Bool b => b
  | Num n => negb (n =? 0)
  | Str s => negb (String.eqb s "")
  | Arr _ | Obj _ _ => true
  end.

(** [a || b] *)
Definition or (a b : Value) : Value := if truthy a then a else b.

(** The string conversion a template literal applies: numbers in decimal,
    arrays joined by commas with [undefined] and [null] elements empty,
    errors through [Error.prototype.toString], other objects as
    [[object Object]]. *)
Fixpoint ToString (v : Value) : string :=
  match v with
  | Undefined => "undefined"
  | Null => "null"
  | Bool true => "true"
  | Bool false => "false"
  | Num n => pretty n
  | Str s => s
  | Arr xs =>
      (fix join (l : list Value) : string :=
         match l with
         | [] => ""
         | x :: r =>
             (match x with Undefined | Null => "" | _ => ToString x end)
             +:+ (match r with [] => "" | _ => "," +:+ join r end)
         end) xs
  | Obj ObjectProto _ => "[object Object]"
  | Obj _ ps =>
      let field :=
        fix field (k : string) (l : Props) : option string :=
          match l with
          | [] => None
          | (k', v') :: r =>
              if String.eqb k k'
              then match v' with Undefined => None | _ => Some (ToString v') end
              else field k r
          end in
      let name := default "Error" (field "name" ps) in
      let msg := default "" (field "message" ps) in
      if String.eqb name "" then msg
      else if String.eqb msg "" then name
      else name +:+ ": " +:+ msg
  end.

(** [_.isArray] and [_.isString] *)
Definition isArray (v : Value) : bool :=
  match v with Arr _ => true | _ => false end.

(** The elements of an array. *)
Definition elements (v : Value) : list Value :=
  match v with Arr xs => xs | _ => [] end.

Definition isString (v : Value) : bool :=
  match v with Str _ => true | _ => false end.

(** [_.every(xs, pred)] *)
Definition every (xs : list Value) (pred : Value → bool) : bool :=
  forallb pred xs.

End Js.

Import Js.

(** ** The error classes, [src/errors/] *)

Module Errors.

Section Classes.

(** The frames V8 records for the construction site; the text of a stack
    is the rendering of the error followed by them. *)
Variable frames : string.

(** [Error.captureStackTrace(this, C)] *)
Definition captureStackTrace (this : Object) : Object :=
  set this "stack" (Str (ToString (ref this) +:+ frames)).

(** [new Error(message)] *)
Definition Error (message : string) : Object :=
  captureStackTrace (set (mkObject ErrorProto []) "message" (Str message)).

(** [new ExtendLockError(message, extendLockLimit)] *)
Definition ExtendLockError (message extendLockLimit : Value) : Object :=
  let this := mkObject ExtendLockErrorProto [] in
  let this := set this "message" message in
  let this := set this "extendLockLimit" extendLockLimit in
  let this := set this "name" (Str "ExtendLockError") in
  captureStackTrace this.

(** [new UnlockError(message, extra)] *)
Definition UnlockError (message extra : Value) : Object :=
  let this := mkObject UnlockErrorProto [] in
  let this := set this "message" message in
  let this := set this "extra" extra in
  let this := set this "name" (Str "UnlockError") in
  captureStackTrace this.

End Classes.

End Errors.

(** ** The runner, [src/index.js] *)

Module Mutex.

(** A lock as [redlock.lock] resolves it; the runner only calls [extend]
    and [unlock] on it. *)
Definition Handle := nat.

(** The part of [initialize]'s argument the runner itself reads
    ([redisClients] and [redlockOptions] go to Redlock). *)
Record Config := mkConfig {
  debugKey : string;
  minimumTtl : Z;
  extendLockBufferOffset : Z;
  maxExtendLockCount : Z
}.

Definition defaults : Config :=
  {| debugKey := "exclusion-mutuelle";
     minimumTtl := 100;
     extendLockBufferOffset := 50;
     maxExtendLockCount := 20 |}.

(** The second argument of [run]: [{ lockKey, lockTtl = 1000 }]. *)
Record Options := mkOptions { lockKey : Value; lockTtl : option Z }.

(** What calling [f()] does. *)
Inductive Task :=
| Throws (e : Value)       (* throws [e] before returning *)
| Returns (v : Value)      (* returns a value that is not a thenable *)
| ReturnsPromise.          (* returns a promise, settled by [TaskSettled]
                              or cancelled by [TaskCancelled] *)

(** The state of [deferred], a Bluebird promise with cancellation on. *)
Inductive Deferred :=
| Pending
| Fulfilled (v : Value)
| Rejected (e : Value)
| Cancelled.

(** [deferred.cancel()]: only a pending promise is cancellable. *)
Definition cancel (d : Deferred) : Deferred :=
  match d with Pending => Cancelled | _ => d end.

Definition isCancelled (d : Deferred) : bool :=
  match d with Cancelled => true | _ => false end.

Definition isPending (d : Deferred) : bool :=
  match d with Pending => true | _ => false end.

(** What the runner does to the lock client, the timer and the task. *)
Inductive Action :=
| Lock (key : Value) (ttl : Z)       (* [redlock.lock(key, lockTtl)] *)
| CallTask                           (* [f()] *)
| SetInterval (ms : Z)
| ClearInterval
| Extend (lock : Handle) (ttl : Z)   (* [lock.extend(lockTtl)] *)
| Unlock (lock : Handle).            (* [lock.unlock()] *)

(** What happens to the runner. *)
Inductive Event :=
| LockSettled (i : nat) (r : Handle + Object)
    (* the promise of the [i]-th [redlock.lock] settles *)
| TaskSettled (r : Value + Value)
    (* the promise returned by [f] fulfils ([inl]) or rejects ([inr]) *)
| TaskCancelled
    (* the promise returned by [f], a Bluebird promise that [deferred] then
       is, is cancelled by the task's side *)
| Tick
    (* the interval timer fires *)
| ExtendSettled (r : option Object)
    (* a [Bluebird.map(locks, extend)] settles: all extended, or an error *)
| Finally
    (* Bluebird runs the handler given to [deferred.finally] *)
| UnlockSettled (r : option Object).
    (* [Bluebird.map(locks, unlock)] settles: all released, or an error *)

(** The variables of one call of [run] once the locks are there.
    [interval] says whether the timer is armed; [extending] counts the
    extension rounds whose promise has not settled yet; [behind] counts the
    extension rounds queued behind the [finally] handler, those of the ticks
    that fired once [deferred] was no longer pending. *)
Record Invocation := mkInvocation {
  locks : list Handle;
  deferred : Deferred;
  extendLockCounter : Z;
  extendLockError : Object;
  interval : bool;
  extending : nat;
  behind : nat
}.

Definition withDeferred (d : Deferred) (iv : Invocation) : Invocation :=
  mkInvocation (locks iv) d (extendLockCounter iv) (extendLockError iv)
               (interval iv) (extending iv) (behind iv).

Definition withError (e : Object) (iv : Invocation) : Invocation :=
  mkInvocation (locks iv) (deferred iv) (extendLockCounter iv) e
               (interval iv) (extending iv) (behind iv).

Definition withCounter (c : Z) (iv : Invocation) : Invocation :=
  mkInvocation (locks iv) (deferred iv) c (extendLockError iv)
               (interval iv) (extending iv) (behind iv).

Definition withInterval (b : bool) (iv : Invocation) : Invocation :=
  mkInvocation (locks iv) (deferred iv) (extendLockCounter iv)
               (extendLockError iv) b (extending iv) (behind iv).

Definition withExtending (n : nat) (iv : Invocation) : Invocation :=
  mkInvocation (locks iv) (deferred iv) (extendLockCounter iv)
               (extendLockError iv) (interval iv) n (behind iv).

Definition withBehind (n : nat) (iv : Invocation) : Invocation :=
  mkInvocation (locks iv) (deferred iv) (extendLockCounter iv)
               (extendLockError iv) (interval iv) (extending iv) n.

(** How the promise returned by [run] ends. *)
Inductive Outcome :=
| Resolved (v : Value)
| Failed (e : Value).

Inductive Phase :=
| Acquiring (slots : list (option Handle))
    (* [Bluebird.map(lockKeys, ...)] is pending; a slot per key *)
| Executing (iv : Invocation)
    (* [f] was called, the timer is armed, [finally] has not run *)
| Releasing (iv : Invocation)
    (* the [finally] handler ran; the unlocks are pending *)
| Returned (o : Outcome).

(** [granted]: the locks Redlock handed out to this call before it
    returned, oldest first; [log]: the calls of this call so far, in the
    order in which they are made. *)
Record State := mkState {
  phase : Phase;
  granted : list Handle;
  log : list Action
}.

(** *** Reading the log *)

Definition unlocks (l : list Action) : list Handle :=
  omap (λ a, match a with Unlock h => Some h | _ => None end) l.

Definition extends (l : list Action) : list Handle :=
  omap (λ a, match a with Extend h _ => Some h | _ => None end) l.

Definition acquires (l : list Action) : list Value :=
  omap (λ a, match a with Lock k _ => Some k | _ => None end) l.

Definition arms (l : list Action) : list Z :=
  omap (λ a, match a with SetInterval ms => Some ms | _ => None end) l.

Definition disarms (l : list Action) : list unit :=
  omap (λ a, match a with ClearInterval => Some () | _ => None end) l.

Definition calls (l : list Action) : list unit :=
  omap (λ a, match a with CallTask => Some () | _ => None end) l.

(** The locks of this call that nothing but their TTL ends: granted, and
    [unlock] was never called on them.  A lock on which [unlock] was called
    is left out, whether or not that [unlock] succeeded. *)
Definition held (s : State) : list Handle :=
  filter (λ h, h ∉ unlocks (log s)) (granted s).

Definition outcome (s : State) : option Outcome :=
  match phase s with Returned o => Some o | _ => None end.

(** *** [initialize] and [run] *)

Section Initialize.

(** [initialize(config)] closes over the configuration. *)
Variable config : Config.
Variable frames : string.

Section Run.

(** [run(f, options)] closes over its arguments. *)
Variable f : Task.
Variable options : Options.

Definition ttl : Z := default 1000 (lockTtl options).

(** [_.isArray(lockKey) ? lockKey : [lockKey]] *)
Definition lockKeys : list Value :=
  if isArray (lockKey options) then elements (lockKey options)
  else [lockKey options].

Definition intervalTime : Z := ttl - extendLockBufferOffset config.

Definition capMessage (count : Z) : string :=
  "[Mutex " +:+ ToString (lockKey options)
  +:+ "] Promise is cancelled because it's been extended for more than "
  +:+ ToString (Num (maxExtendLockCount config))
  +:+ " (extend count: " +:+ ToString (Num count) +:+ ")".

Definition unlockMessage (error : Object) : string :=
  "[Mutex " +:+ ToString (lockKey options)
  +:+ "] Error when unlocking resource, no worries we've set a TTL "
  +:+ ToString (Num ttl)
  +:+ " ms, it'll unlock automatically. Error " +:+ ToString (ref error).

(** The callback given to [setInterval] (lines 68-100).  The [extend]
    calls of [Bluebird.map] are made from Bluebird's queue: at once when
    [deferred] is pending, behind the [finally] handler when [deferred] has
    settled or is cancelled, since the handler is queued by then. *)
Definition tick (iv : Invocation) : Invocation * list Action :=
  let iv := withCounter (extendLockCounter iv + 1) iv in
  if maxExtendLockCount config <? extendLockCounter iv then
    let iv := withDeferred (cancel (deferred iv)) iv in
    let iv :=
      withError (set (extendLockError iv) "message"
                     (Str (capMessage (extendLockCounter iv)))) iv in
    (iv, [])
  else
    (if isPending (deferred iv) then withExtending (S (extending iv)) iv
     else withBehind (S (behind iv)) iv,
     map (λ lock, Extend lock ttl) (locks iv)).

(** The [.then] and [.catch] after [Bluebird.map(locks, extend)]
    (lines 89-99). *)
Definition extended (r : option Object) (iv : Invocation) : Invocation :=
  let iv := withExtending (pred (extending iv)) iv in
  match r with
  | None => iv
  | Some error =>
      let iv := withDeferred (cancel (deferred iv)) iv in
      withError error iv
  end.

(** [a] is made ahead of the last [n] calls of the log, which are still
    in Bluebird's queue. *)
Definition ahead (n : nat) (a : Action) (l : list Action) : list Action :=
  take (length l - n) l ++ a :: drop (length l - n) l.

(** The handler given to [deferred.finally], up to the unlock calls
    (lines 103-109): [clearInterval] is called by the handler, ahead of the
    extension rounds queued behind it; the [unlock] calls of [Bluebird.map]
    are queued after them. *)
Definition release (iv : Invocation) (l : list Action)
  : Invocation * list Action :=
  (withExtending (extending iv + behind iv) (withInterval false iv),
   ahead (behind iv * length (locks iv)) ClearInterval l
   ++ map Unlock (locks iv)).

(** The rest of the handler, once [Bluebird.map(locks, unlock)] has
    settled (lines 110-131), and what [finally] then makes of [deferred]: a
    rejection of the handler's promise replaces the result, a fulfilment
    lets the result of [deferred] through. *)
Definition settle (r : option Object) (iv : Invocation) : option Outcome :=
  match r with
  | Some error =>
      let unlockError :=
        Errors.UnlockError frames (Str (unlockMessage error)) Undefined in
      let unlockError := set unlockError "stack" (get error "stack") in
      Some (Failed (ref unlockError))
  | None =>
      if isCancelled (deferred iv) then
        let error :=
          Errors.ExtendLockError
            frames (get (extendLockError iv) "message") Undefined in
        let error :=
          set error "stack"
              (or (get (extendLockError iv) "stack") (get error "stack")) in
        Some (Failed (ref error))
      else
        match deferred iv with
        | Fulfilled v => Some (Resolved v)
        | Rejected e => Some (Failed e)
        | _ => None (* pending: the handler has not been called *)
        end
  end.

(** The handler of [.then((locks) => ...)]: call [f], arm the timer
    (lines 58-100).  When [f] throws, the handler ends there. *)
Definition start (locks : list Handle) : Phase * list Action :=
  match f with
  | Throws e => (Returned (Failed e), [CallTask])
  | Returns v =>
      (Executing (mkInvocation locks (Fulfilled v) 0
                               (mkObject ObjectProto []) true 0 0),
       [CallTask; SetInterval intervalTime])
  | ReturnsPromise =>
      (Executing (mkInvocation locks Pending 0
                               (mkObject ObjectProto []) true 0 0),
       [CallTask; SetInterval intervalTime])
  end.

(** [Bluebird.map] fulfils once every slot is filled. *)
Definition proceed (slots : list (option Handle)) : Phase * list Action :=
  match mapM id slots with
  | Some locks => start locks
  | None => (Acquiring slots, [])
  end.

Definition step (s : State) (ev : Event) : State :=
  match phase s, ev with
  | Acquiring slots, LockSettled i r =>
      match slots !! i with
      | Some None =>
          match r with
          | inl lock =>
              let '(ph, acts) := proceed (<[i := Some lock]> slots) in
              mkState ph (granted s ++ [lock]) (log s ++ acts)
          | inr error =>
              mkState (Returned (Failed (ref error))) (granted s) (log s)
          end
      | _ => s
      end
  | Executing iv, TaskSettled r =>
      if isPending (deferred iv) then
        let d := match r with
                 | inl v => Fulfilled v
                 | inr e => Rejected e
                 end in
        mkState (Executing (withDeferred d iv)) (granted s) (log s)
      else s
  | Executing iv, TaskCancelled =>
      mkState (Executing (withDeferred (cancel (deferred iv)) iv))
              (granted s) (log s)
  | Executing iv, Tick =>
      if interval iv then
        let '(iv, acts) := tick iv in
        mkState (Executing iv) (granted s) (log s ++ acts)
      else s
  | Executing iv, ExtendSettled r =>
      match extending iv with
      | O => s
      | S _ => mkState (Executing (extended r iv)) (granted s) (log s)
      end
  | Releasing iv, ExtendSettled r =>
      match extending iv with
      | O => s
      | S _ => mkState (Releasing (extended r iv)) (granted s) (log s)
      end
  | Executing iv, Finally =>
      if isPending (deferred iv) then s
      else
        let '(iv, l) := release iv (log s) in
        mkState (Releasing iv) (granted s) l
  | Releasing iv, UnlockSettled r =>
      match settle r iv with
      | Some o => mkState (Returned o) (granted s) (log s)
      | None => s
      end
  | _, _ => s
  end.

Definition rejected (e : Object) : State :=
  mkState (Returned (Failed (ref e))) [] [].

(** The body of [run] up to the promise it returns (lines 42-57). *)
Definition run : State :=
  if ttl <? minimumTtl config then
    rejected
      (Errors.Error frames
         ("TTL must be more than "
          +:+ ToString (Num (minimumTtl config)) +:+ " ms!"))
  else if negb (every lockKeys isString) then
    rejected
      (Errors.Error frames
         "Lock key must be a string or an array of string")
  else
    let '(ph, acts) := proceed (map (λ _, None) lockKeys) in
    mkState ph [] (map (λ key, Lock key ttl) lockKeys ++ acts).

(** The call followed through a sequence of events. *)
Definition exec (s : State) (evs : list Event) : State :=
  foldl step s evs.

Definition trace (evs : list Event) : State := exec run evs.

End Run.

End Initialize.

End Mutex.

Import Mutex.

(** * The vocabulary of the properties *)

(** A lock key in the words of the specification: a string, or a sequence
    of strings. *)
Definition wellFormedKey (v : Value) : Prop :=
  (∃ s, v = Str s)
  ∨ (∃ xs, v = Arr xs ∧ Forall (λ x, ∃ s, x = Str s) xs).

(** What [instanceof] answers on the reason of a failed call. *)
Definition instanceOf (p : Proto) (o : Outcome) : Prop :=
  match o with
  | Failed (Obj p' _) => p' = p
  | _ => False
  end.

(** The [finally] handler has run: the call is releasing or has returned. *)
Definition closed (s : State) : Prop :=
  match phase s with
  | Releasing _ | Returned _ => True
  | _ => False
  end.

(** ** The shape of the states a call goes through

    [Reached] lists, phase by phase, what the log and the variables of a
    call can be; the properties below are read off it. *)

Section Shape.

Variable config : Config.
Variable frames : string.
Variable f : Task.
Variable options : Options.

(** The [lock] calls of the acquisition phase. *)
Definition acquisition : list Action :=
  map (λ key, Lock key (ttl options)) (lockKeys options).

(** The [extend] calls of one tick under the cap. *)
Definition round (locks : list Handle) : list Action :=
  map (λ lock, Extend lock (ttl options)) locks.

(** The ticks so far that were under the cap. *)
Definition rounds (iv : Invocation) : nat :=
  Z.to_nat (Z.min (extendLockCounter iv) (maxExtendLockCount config)).

Definition execution (iv : Invocation) : list Action :=
  acquisition
  ++ [CallTask; SetInterval (intervalTime config options)]
  ++ concat (replicate (rounds iv) (round (locks iv))).

(** The log once the [finally] handler has run: the rounds queued behind
    the handler come after [clearInterval]. *)
Definition released (iv : Invocation) : list Action :=
  acquisition
  ++ [CallTask; SetInterval (intervalTime config options)]
  ++ concat (replicate (rounds iv - behind iv) (round (locks iv)))
  ++ ClearInterval :: concat (replicate (behind iv) (round (locks iv)))
  ++ map Unlock (locks iv).

Definition invalid : Prop :=
  ttl options < minimumTtl config ∨ every (lockKeys options) isString = false.

Definition returns : Prop := ∀ e, f ≠ Throws e.

Inductive Reached : State → Prop :=
| reached_invalid e :
    invalid →
    Reached (mkState (Returned (Failed e)) [] [])
| reached_acquiring slots g :
    ¬ invalid →
    length slots = length (lockKeys options) →
    mapM id slots = None →
    g ≡ₚ omap id slots →
    Reached (mkState (Acquiring slots) g acquisition)
| reached_refused error g :
    ¬ invalid →
    Reached (mkState (Returned (Failed (ref error))) g acquisition)
| reached_thrown e g :
    ¬ invalid →
    f = Throws e →
    length g = length (lockKeys options) →
    Reached (mkState (Returned (Failed e)) g (acquisition ++ [CallTask]))
| reached_executing iv g l :
    ¬ invalid →
    returns →
    interval iv = true →
    0 ≤ extendLockCounter iv →
    (behind iv ≤ rounds iv)%nat →
    (deferred iv = Pending → behind iv = 0%nat) →
    g ≡ₚ locks iv →
    length (locks iv) = length (lockKeys options) →
    l = execution iv →
    Reached (mkState (Executing iv) g l)
| reached_releasing iv g l :
    ¬ invalid →
    returns →
    interval iv = false →
    deferred iv ≠ Pending →
    0 ≤ extendLockCounter iv →
    (behind iv ≤ rounds iv)%nat →
    g ≡ₚ locks iv →
    length (locks iv) = length (lockKeys options) →
    l = released iv →
    Reached (mkState (Releasing iv) g l)
| reached_returned iv r o g l :
    ¬ invalid →
    returns →
    deferred iv ≠ Pending →
    settle frames options r iv = Some o →
    (behind iv ≤ rounds iv)%nat →
    g ≡ₚ locks iv →
    length (locks iv) = length (lockKeys options) →
    l = released iv →
    Reached (mkState (Returned o) g l).

End Shape.

(** ** Scenarios

    Concrete calls, after the test suite: a single key or several, a task
    that returns, rejects, throws or outlives the cap, a lock client that
    refuses a key or fails to release. *)

Definition oneKey : Options := mkOptions (Str "lock-key") None.

Definition twoKeys : Options := mkOptions (Arr [Str "a"; Str "b"]) None.

Definition ttl110 : Options := mkOptions (Str "lock-key") (Some 110).

Definition invalidTtlCall : Options := mkOptions (Str "lock-key") (Some 99).

Definition minimumTtlCall : Options := mkOptions (Str "lock-key") (Some 100).

Definition smallCap : Config := mkConfig "exclusion-mutuelle" 100 50 2.

Definition boom : Value :=
  Obj ErrorProto [("message", Str "boom"); ("stack", Str "Error: boom")].

Definition taskError : Value :=
  Obj ErrorProto [("message", Str "Some random error");
                  ("stack", Str "Error: Some random error")].

Definition lockError : Object :=
  mkObject LockErrorProto
           [("name", Str "LockError");
            ("message", Str "Failed to lock the resource.");
            ("attempts", Num 0)].

Definition unlockingError : Object :=
  mkObject ErrorProto [("message", Str "Unlocking error");
                       ("stack", Str "Error: Unlocking error")].

Definition otherUnlockingError : Object :=
  mkObject ErrorProto [("message", Str "Unlocking error");
                       ("stack", Str "Error: Unlocking error");
                       ("code", Str "ECONNRESET")].

Definition longTask (n : nat) : list Event :=
  LockSettled 0 (inl 7%nat) :: concat (replicate n [Tick; ExtendSettled None]).

Definition overCap : list Event :=
  longTask 20 ++ [Tick; Finally; UnlockSettled None].

Definition failingTask : list Event :=
  [LockSettled 0 (inl 7%nat); TaskSettled (inr taskError); Finally].

Definition cancelledTask : list Event :=
  [LockSettled 0 (inl 7%nat); Tick; ExtendSettled (Some lockError); Finally].

Definition twoRounds : Invocation :=
  mkInvocation [7%nat] Pending 2 (mkObject ObjectProto []) true 0 0.

Definition failedTask : Invocation :=
  mkInvocation [7%nat] (Rejected taskError) 0 (mkObject ObjectProto [])
               false 0 0.

Definition partialAcquisition : State :=
  trace defaults "" ReturnsPromise twoKeys
        [LockSettled 0 (inl 1%nat); LockSettled 1 (inr lockError)].

(** One extension round, then the task fulfils. *)
Definition oneRound : list Event :=
  [LockSettled 0 (inl 7%nat); Tick; ExtendSettled None;
   TaskSettled (inl (Str "done")); Finally; UnlockSettled None].

(** The task fulfils and the timer fires before Bluebird has run the
    [finally] handler. *)
Definition lateTick : list Event :=
  [LockSettled 0 (inl 7%nat); TaskSettled (inl (Str "done")); Tick;
   Finally; UnlockSettled None].

Definition releaseFails (error : Object) : State :=
  trace defaults "" (Returns Undefined) oneKey
        [LockSettled 0 (inl 7%nat); Finally; UnlockSettled (Some error)].

(** ** Reading a sequence of events *)

Definition isTick (ev : Event) : bool :=
  match ev with Tick => true | _ => false end.

(** The number of times the timer fires. *)
Definition ticks (evs : list Event) : nat := length (filter isTick evs).

(** What cancels the task apart from the cap: a [Bluebird.map(locks,
    extend)] that rejects, and a cancellation from the task's own side. *)
Definition cancels (ev : Event) : bool :=
  match ev with
  | ExtendSettled (Some _) | TaskCancelled => true
  | _ => false
  end.

(** No tick of [evs] fires between the moment [deferred] settles or is
    cancelled and its [finally] handler: every tick that finds the task
    called finds [deferred] pending. *)
Fixpoint timely (config : Config) (frames : string) (f : Task)
    (options : Options) (s : State) (evs : list Event) : bool :=
  match evs with
  | [] => true
  | ev :: evs =>
      match ev, phase s with
      | Tick, Executing iv => isPending (deferred iv)
      | _, _ => true
      end
      && timely config frames f options (step config frames f options s ev)
                evs
  end.

Definition punctual (config : Config) (frames : string) (f : Task)
    (options : Options) (evs : list Event) : bool :=
  timely config frames f options (run config frames f options) evs.

(** No extension round waits behind the [finally] handler, and none was
    made after [clearInterval]. *)
Definition orderly (s : State) : Prop :=
  (∀ iv, phase s = Executing iv → behind iv = 0%nat)
  ∧ ∀ a b, log s = a ++ ClearInterval :: b → extends b = [].

(** The variables of the call, while it has some. *)
Definition invocation (s : State) : option Invocation :=
  match phase s with
  | Executing iv | Releasing iv => Some iv
  | _ => None
  end.

(** Redlock grants the keys in the order [order] of their indices, the
    [i]-th key with the lock [hs !!! i]. *)
Definition grantsIn (order : list nat) (hs : list Handle) : list Event :=
  map (λ i, LockSettled i (inl (hs !!! i))) order.

(** The slots of [Bluebird.map] once the keys of [seen] are granted. *)
Definition slotsAfter (seen : list nat) (hs : list Handle)
  : list (option Handle) :=
  imap (λ i h, if bool_decide (i ∈ seen) then Some h else None) hs.

(** What the call makes of a task's own result. *)
Definition taskResult (d : Deferred) (o : Outcome) : Prop :=
  match d with
  | Fulfilled v => o = Resolved v
  | Rejected e => o = Failed e
  | _ => False
  end.

(** The task has settled with [d] and the call goes by it. *)
Definition keeps (d : Deferred) (s : State) : Prop :=
  match phase s with
  | Executing iv | Releasing iv => deferred iv = d
  | Returned o => instanceOf UnlockErrorProto o ∨ taskResult d o
  | Acquiring _ => False
  end.

(** ** More scenarios *)

Definition fourTicks : list Event :=
  LockSettled 0 (inl 7%nat)
  :: concat (replicate 4 [Tick; ExtendSettled None])
  ++ [TaskSettled (inl (Str "done")); Finally].

Definition afterFourTicks : Invocation :=
  mkInvocation [7%nat] (Fulfilled (Str "done")) 4 (mkObject ObjectProto [])
               false 0 0.

Definition lateTrouble : list Event :=
  [Tick; Tick; Tick; ExtendSettled (Some lockError); Finally;
   UnlockSettled None].

(** * Properties *)

(** ** Lists of slots *)

Lemma mapM_id_omap {A} (slots : list (option A)) (xs : list A) :
  mapM id slots = Some xs → omap id slots = xs ∧ length xs = length slots.
Proof.
  intros H. apply mapM_Some in H.
  induction H as [|x y l k Hxy _ [IH1 IH2]]; [done|].
  simpl in Hxy. subst x. split.
  - change (y :: omap id l = y :: k). by f_equal.
  - simpl. by f_equal.
Qed.

Lemma omap_id_fill {A} (slots : list (option A)) (i : nat) (x : A) :
  slots !! i = Some None →
  omap id (<[i := Some x]> slots) ≡ₚ omap id slots ++ [x].
Proof.
  revert i. induction slots as [|s slots IH]; intros [|i] H; simplify_eq/=.
  - change (x :: omap id slots ≡ₚ omap id slots ++ [x]).
    by rewrite Permutation_app_comm.
  - destruct s as [a|]; simpl; [|by apply IH].
    change (a :: omap id (<[i:=Some x]> slots)
            ≡ₚ a :: (omap id slots ++ [x])).
    f_equiv. by apply IH.
Qed.

Lemma concat_replicate_S {A} (n : nat) (l : list A) :
  concat (replicate (S n) l) = concat (replicate n l) ++ l.
Proof.
  induction n as [|n IH]; [simpl; by rewrite app_nil_r|].
  change (l ++ concat (replicate (S n) l) = (l ++ concat (replicate n l)) ++ l).
  by rewrite IH, app_assoc.
Qed.

Lemma omap_map_None {A B C} (p : B → option C) (g : A → B) (l : list A) :
  (∀ a, p (g a) = None) → omap p (map g l) = [].
Proof.
  intros H. induction l as [|a l IH]; [done|].
  change (omap p (g a :: map g l) = []). simpl. by rewrite H.
Qed.

Lemma omap_map_Some {A B C} (p : B → option C) (g : A → B) (h : A → C)
    (l : list A) :
  (∀ a, p (g a) = Some (h a)) → omap p (map g l) = map h l.
Proof.
  intros H. induction l as [|a l IH]; [done|].
  change (omap p (g a :: map g l) = h a :: map h l). simpl. rewrite H.
  by f_equal.
Qed.

Lemma omap_concat_replicate {A B} (p : A → option B) (n : nat) (l : list A) :
  omap p (concat (replicate n l)) = concat (replicate n (omap p l)).
Proof.
  induction n as [|n IH]; [done|].
  change (omap p (l ++ concat (replicate n l))
          = omap p l ++ concat (replicate n (omap p l))).
  by rewrite omap_app, IH.
Qed.

Lemma concat_replicate_nil {A} (n : nat) :
  concat (replicate n (@nil A)) = [].
Proof. induction n; [done|]. simpl. done. Qed.

Lemma filter_all {A} (P : A → Prop) `{∀ x, Decision (P x)} (l : list A) :
  (∀ x, P x) → filter P l = l.
Proof.
  intros HP. induction l as [|x l IH]; [done|].
  rewrite filter_cons_True by done. by f_equal.
Qed.

(** Where an element sits when a list is cut in two ways. *)
Lemma app_cons_split {A} (l1 l2 m1 m2 : list A) (x : A) :
  l1 ++ x :: l2 = m1 ++ m2 → x ∉ m1 →
  ∃ b, l1 = m1 ++ b ∧ m2 = b ++ x :: l2.
Proof.
  intros Heq Hx. apply app_eq_inv in Heq as [(k & -> & ->)|(k & -> & Hk)].
  - by exists k.
  - destruct k as [|y k]; simplify_eq/=.
    + exists []. by rewrite !app_nil_r.
    + exfalso. apply Hx. rewrite elem_of_app, elem_of_cons. auto.
Qed.

(** ** Every state of a call has one of the shapes *)

Section Lifecycle.

Variable config : Config.
Variable frames : string.
Variable f : Task.
Variable options : Options.

Local Abbreviation reached := (Reached config frames f options).
Local Abbreviation next := (step config frames f options).
Local Abbreviation after := (exec config frames f options).

Lemma execution_0 locks d e b n m :
  execution config options (mkInvocation locks d 0 e b n m)
  = acquisition options
    ++ [CallTask; SetInterval (intervalTime config options)].
Proof.
  unfold execution, rounds; simpl.
  by replace (Z.to_nat (0 `min` maxExtendLockCount config)) with 0%nat by lia.
Qed.

Lemma reached_proceed slots g :
  ¬ invalid config options →
  length slots = length (lockKeys options) →
  g ≡ₚ omap id slots →
  reached (mkState (proceed config f options slots).1 g
                   (acquisition options
                    ++ (proceed config f options slots).2)).
Proof.
  intros Hv Hlen Hg. unfold proceed.
  destruct (mapM id slots) as [locks|] eqn:Hm.
  - apply mapM_id_omap in Hm as [Hm Hl]. rewrite Hm in Hg.
    unfold start. destruct f as [e| v |] eqn:Hf; simpl.
    + apply reached_thrown; [done..|]. rewrite Hg. congruence.
    + apply reached_executing;
        first [done | intros e'; congruence | simpl; congruence
              | simpl; lia | by rewrite execution_0].
    + apply reached_executing;
        first [done | intros e'; congruence | simpl; congruence
              | simpl; lia | by rewrite execution_0].
  - simpl. rewrite app_nil_r. by apply reached_acquiring.
Qed.

Lemma reached_run : reached (run config frames f options).
Proof.
  unfold run.
  destruct (ttl options <? minimumTtl config) eqn:Httl.
  { apply reached_invalid. left. lia. }
  destruct (every (lockKeys options) isString) eqn:Hkeys; simpl.
  2:{ apply reached_invalid. by right. }
  assert (¬ invalid config options) as Hv.
  { intros [?|?]; [lia|congruence]. }
  pose proof (reached_proceed (map (λ _, None) (lockKeys options)) [] Hv) as H.
  destruct (proceed _ _ _ _) as [ph acts]. apply H.
  - by rewrite length_map.
  - clear. induction (lockKeys options); simpl; auto.
Qed.

Lemma cancel_not_pending d : d ≠ Pending → cancel d ≠ Pending.
Proof. by destruct d. Qed.

Lemma rounds_over iv :
  0 ≤ extendLockCounter iv →
  maxExtendLockCount config < extendLockCounter iv + 1 →
  Z.to_nat (Z.min (extendLockCounter iv + 1) (maxExtendLockCount config))
  = rounds config iv.
Proof. unfold rounds. lia. Qed.

Lemma rounds_under iv :
  0 ≤ extendLockCounter iv →
  extendLockCounter iv + 1 ≤ maxExtendLockCount config →
  Z.to_nat (Z.min (extendLockCounter iv + 1) (maxExtendLockCount config))
  = S (rounds config iv).
Proof. unfold rounds. lia. Qed.

Lemma ahead_0 (a : Action) (l : list Action) : ahead 0 a l = l ++ [a].
Proof.
  unfold ahead. rewrite Nat.sub_0_r, firstn_all, drop_all. done.
Qed.

Lemma ahead_app (a : Action) (l k : list Action) :
  ahead (length k) a (l ++ k) = l ++ a :: k.
Proof.
  unfold ahead. rewrite length_app.
  replace (length l + length k - length k)%nat with (length l) by lia.
  by rewrite take_app_length, drop_app_length.
Qed.

Lemma length_rounds (n : nat) (ls : list Handle) :
  length (concat (replicate n (round options ls))) = (n * length ls)%nat.
Proof.
  induction n as [|n IH]; [done|].
  change (length (round options ls ++ concat (replicate n (round options ls)))
          = (S n * length ls)%nat).
  rewrite length_app, IH. unfold round. rewrite length_map. lia.
Qed.

Lemma concat_replicate_add {A} (n m : nat) (l : list A) :
  concat (replicate (n + m) l)
  = concat (replicate n l) ++ concat (replicate m l).
Proof. by rewrite replicate_add, concat_app. Qed.

(** What the [finally] handler makes of the log. *)
Lemma release_log iv :
  (behind iv ≤ rounds config iv)%nat →
  ahead (behind iv * length (locks iv)) ClearInterval
        (execution config options iv)
  ++ map Unlock (locks iv)
  = released config options iv.
Proof.
  intros Hb. unfold execution, released.
  replace (rounds config iv)
    with ((rounds config iv - behind iv) + behind iv)%nat at 1 by lia.
  rewrite concat_replicate_add, <- length_rounds.
  rewrite !app_assoc, ahead_app. by rewrite <- !app_assoc.
Qed.

Lemma reached_tick iv g l :
  reached (mkState (Executing iv) g l) →
  reached (mkState (Executing (tick config options iv).1) g
                   (l ++ (tick config options iv).2)).
Proof.
  inversion 1 as [| | | |? ? ? Hv Hf Hi Hc Hb Hq Hg Hl Hlog| |]; subst.
  unfold tick; simpl.
  destruct (maxExtendLockCount config <? extendLockCounter iv + 1) eqn:Hcap;
    simpl.
  - apply reached_executing; simpl; [done|done|done|lia| | |done|done|].
    + unfold rounds in *. simpl. lia.
    + by destruct (deferred iv).
    + rewrite app_nil_r. unfold execution, rounds; simpl.
      by rewrite rounds_over by lia.
  - assert (execution config options iv
            ++ map (λ lock, Extend lock (ttl options)) (locks iv)
            = execution config options
                (withCounter (extendLockCounter iv + 1) iv)) as Hlog.
    { unfold execution, rounds; simpl. rewrite rounds_under by lia.
      by rewrite concat_replicate_S, <- !app_assoc. }
    destruct (deferred iv) eqn:Hd; simpl;
      (apply reached_executing; simpl;
       [done|done|done|lia| | |done|done|by rewrite Hlog]);
      unfold rounds in *; simpl; try done; try lia; try congruence.
    intros _. by apply Hq.
Qed.

Lemma reached_step s ev :
  reached s → reached (next s ev).
Proof.
  intros H. pose proof H as H0.
  destruct H as [e Hv|slots g Hv Hlen Hm Hg|error g Hv|e g Hv Hf Hlen
                |iv g l Hv Hf Hi Hc Hb Hq Hg Hlen Hlog
                |iv g l Hv Hf Hi Hd Hc Hb Hg Hlen Hlog
                |iv r o g l Hv Hf Hd Hs Hb Hg Hlen Hlog];
    destruct ev as [i r'|r'| | |r'| |r']; unfold step; simpl; try exact H0.
  - (* a lock settles *)
    destruct (slots !! i) as [[h|]|] eqn:Hi; try exact H0.
    destruct r' as [lock|error].
    + pose proof (reached_proceed (<[i := Some lock]> slots) (g ++ [lock]) Hv)
        as H.
      destruct (proceed _ _ _ _) as [ph acts]. apply H.
      * by rewrite length_insert.
      * by rewrite omap_id_fill, Hg.
    + by eapply reached_refused.
  - (* the task settles *)
    destruct (isPending (deferred iv)) eqn:Hp; [|exact H0].
    apply reached_executing; try done.
    simpl. intros Hd. by destruct r'.
  - (* the task is cancelled from its own side *)
    apply reached_executing; try done.
    simpl. intros Hd. by destruct (deferred iv).
  - (* a tick *)
    rewrite Hi. pose proof (reached_tick _ _ _ H0) as H.
    by destruct (tick config options iv).
  - (* an extension round settles *)
    destruct (extending iv); [exact H0|].
    apply reached_executing; try done; try (by destruct r').
    destruct r'; simpl; [|done]. intros Hd. by destruct (deferred iv).
  - (* the finally handler *)
    destruct (isPending (deferred iv)) eqn:Hp; [exact H0|].
    simpl. apply reached_releasing; try done.
    + simpl. by destruct (deferred iv).
    + subst l. exact (release_log iv Hb).
  - (* a late extension round *)
    destruct (extending iv); [exact H0|].
    apply reached_releasing; try done; try (by destruct r').
    destruct r'; simpl; [by apply cancel_not_pending|done].
  - (* the unlocks settle *)
    destruct (settle frames options r' iv) as [o|] eqn:Hs; [|exact H0].
    by eapply reached_returned.
Qed.

Lemma reached_exec s evs :
  reached s → reached (after s evs).
Proof.
  revert s. induction evs as [|ev evs IH]; intros s H; [done|].
  apply IH. by apply reached_step.
Qed.

Theorem reached_trace evs : reached (trace config frames f options evs).
Proof. apply reached_exec, reached_run. Qed.

(** *** What the log of each phase holds *)

Lemma unlocks_acquisition : unlocks (acquisition options) = [].
Proof. by apply omap_map_None. Qed.

Lemma extends_acquisition : extends (acquisition options) = [].
Proof. by apply omap_map_None. Qed.

Lemma arms_acquisition : arms (acquisition options) = [].
Proof. by apply omap_map_None. Qed.

Lemma calls_acquisition : calls (acquisition options) = [].
Proof. by apply omap_map_None. Qed.

Lemma acquires_acquisition : acquires (acquisition options) = lockKeys options.
Proof.
  unfold acquires, acquisition.
  rewrite (omap_map_Some _ _ id) by done. apply map_id.
Qed.

Lemma unlocks_execution iv : unlocks (execution config options iv) = [].
Proof.
  unfold execution, unlocks. rewrite !omap_app, omap_concat_replicate.
  fold (unlocks (acquisition options)). rewrite unlocks_acquisition.
  unfold round. rewrite (omap_map_None _ _ (locks iv)) by done.
  by rewrite concat_replicate_nil.
Qed.

Lemma extends_execution iv :
  extends (execution config options iv)
  = concat (replicate (rounds config iv) (locks iv)).
Proof.
  unfold execution, extends. rewrite !omap_app, omap_concat_replicate.
  fold (extends (acquisition options)). rewrite extends_acquisition.
  unfold round. rewrite (omap_map_Some _ _ id (locks iv)) by done.
  by rewrite map_id.
Qed.

Lemma disarms_acquisition : disarms (acquisition options) = [].
Proof. by apply omap_map_None. Qed.

Lemma disarms_execution iv : disarms (execution config options iv) = [].
Proof.
  unfold execution, disarms. rewrite !omap_app, omap_concat_replicate.
  fold (disarms (acquisition options)). rewrite disarms_acquisition.
  unfold round. rewrite (omap_map_None _ _ (locks iv)) by done.
  by rewrite concat_replicate_nil.
Qed.

Lemma released_parts iv :
  released config options iv
  = acquisition options
    ++ [CallTask; SetInterval (intervalTime config options)]
    ++ concat (replicate (rounds config iv - behind iv)
                         (round options (locks iv)))
    ++ [ClearInterval]
    ++ concat (replicate (behind iv) (round options (locks iv)))
    ++ map Unlock (locks iv).
Proof. done. Qed.

Lemma unlocks_released iv : unlocks (released config options iv) = locks iv.
Proof.
  rewrite released_parts. unfold unlocks.
  rewrite !omap_app, !omap_concat_replicate.
  fold (unlocks (acquisition options)). rewrite unlocks_acquisition.
  unfold round. rewrite (omap_map_None _ _ (locks iv)) by done.
  rewrite !concat_replicate_nil.
  rewrite (omap_map_Some _ _ id (locks iv)) by done.
  by rewrite map_id.
Qed.

Lemma calls_released iv : calls (released config options iv) = [()].
Proof.
  rewrite released_parts. unfold calls.
  rewrite !omap_app, !omap_concat_replicate.
  fold (calls (acquisition options)). rewrite calls_acquisition.
  unfold round. rewrite !(omap_map_None _ _ (locks iv)) by done.
  by rewrite !concat_replicate_nil.
Qed.

Lemma arms_released iv :
  arms (released config options iv) = [intervalTime config options].
Proof.
  rewrite released_parts. unfold arms.
  rewrite !omap_app, !omap_concat_replicate.
  fold (arms (acquisition options)). rewrite arms_acquisition.
  unfold round. rewrite !(omap_map_None _ _ (locks iv)) by done.
  by rewrite !concat_replicate_nil.
Qed.

Lemma disarms_released iv : disarms (released config options iv) = [()].
Proof.
  rewrite released_parts. unfold disarms.
  rewrite !omap_app, !omap_concat_replicate.
  fold (disarms (acquisition options)). rewrite disarms_acquisition.
  unfold round. rewrite !(omap_map_None _ _ (locks iv)) by done.
  by rewrite !concat_replicate_nil.
Qed.

Lemma extends_released iv :
  (behind iv ≤ rounds config iv)%nat →
  extends (released config options iv)
  = concat (replicate (rounds config iv) (locks iv)).
Proof.
  intros Hb. rewrite released_parts. unfold extends.
  rewrite !omap_app, !omap_concat_replicate.
  fold (extends (acquisition options)). rewrite extends_acquisition.
  unfold round. rewrite (omap_map_None _ Unlock (locks iv)) by done.
  rewrite (omap_map_Some _ _ id (locks iv)) by done.
  rewrite map_id, app_nil_r. simpl.
  rewrite <- concat_replicate_add. f_equal. f_equal. lia.
Qed.

(** *** Once the [finally] handler has run, the log is closed *)

Lemma closed_step s ev :
  closed s →
  closed (next s ev)
  ∧ log (next s ev) = log s
  ∧ granted (next s ev) = granted s.
Proof.
  unfold closed, step. destruct s as [[slots|iv|iv|o] g l]; simpl; try done.
  destruct ev as [i r| r| | |r| |r]; simpl; try done.
  - by destruct (extending iv).
  - by destruct (settle frames options r iv).
Qed.

Lemma closed_exec s evs :
  closed s →
  closed (after s evs)
  ∧ log (after s evs) = log s
  ∧ granted (after s evs) = granted s.
Proof.
  revert s. induction evs as [|ev evs IH]; intros s H; [done|].
  destruct (closed_step s ev H) as (Hc & Hl & Hg).
  destruct (IH _ Hc) as (Hc' & Hl' & Hg').
  simpl. unfold exec in *. by rewrite Hl', Hg', Hl, Hg.
Qed.

(** A settled call stays settled. *)
Lemma returned_step s ev o :
  phase s = Returned o → next s ev = s.
Proof. unfold step. intros ->. by destruct ev. Qed.

Lemma returned_exec s evs o :
  phase s = Returned o → after s evs = s.
Proof.
  induction evs as [|ev evs IH]; intros H; [done|].
  unfold exec in *. simpl. rewrite (returned_step s ev o H). by apply IH.
Qed.

End Lifecycle.

(** ** Validation *)

Lemma every_isString (xs : list Value) :
  every xs isString = true ↔ Forall (λ x, ∃ s, x = Str s) xs.
Proof.
  unfold every. induction xs as [|x xs IH]; simpl.
  - split; [constructor|done].
  - split.
    + intros [Hx Hxs]%andb_prop. constructor; [|exact (proj1 IH Hxs)].
      destruct x; try done. by eexists.
    + inversion 1 as [|? ? [s ->] Hxs]; subst. simpl. exact (proj2 IH Hxs).
Qed.

(** The check [run] makes is the specification's notion of a lock key. *)
Lemma wellFormedKey_checked (options : Options) :
  wellFormedKey (lockKey options) ↔ every (lockKeys options) isString = true.
Proof.
  unfold wellFormedKey, lockKeys.
  destruct (lockKey options) as [| |b|n|s|xs|p ps]; simpl;
    try (split; [intros [[s' Hs]|(xs' & Hx & _)]; done | done]).
  - split; [done|]. intros _. left. eauto.
  - rewrite every_isString. split.
    + intros [[s' Hs]|(xs' & Hx & HF)]; [done|]. by simplify_eq.
    + intros HF. right. eauto.
Qed.

Lemma invalid_trace config frames f options evs :
  invalid config options →
  ∃ e, trace config frames f options evs
       = mkState (Returned (Failed e)) [] [].
Proof.
  intros Hinv.
  pose proof (reached_trace config frames f options evs) as H.
  inversion H; try done. eauto.
Qed.

(** C6: a [lockTtl] below [minimumTtl], or a [lockKey] that is neither a
    string nor a sequence of strings, makes [run] fail at once and without any
    side effect: whatever happens afterwards, no lock is ever acquired,
    extended or released, the task is never called and the timer is never
    armed. *)
Theorem validation_has_no_side_effect
    (config : Config) (frames : string) (f : Task) (options : Options)
    (evs : list Event) :
  ttl options < minimumTtl config ∨ ¬ wellFormedKey (lockKey options) →
  let s := trace config frames f options evs in
  (∃ e, outcome (run config frames f options) = Some (Failed e)
        ∧ outcome s = Some (Failed e))
  ∧ log s = []
  ∧ acquires (log s) = [] ∧ extends (log s) = [] ∧ unlocks (log s) = []
  ∧ arms (log s) = [] ∧ calls (log s) = []
  ∧ granted s = [].
Proof.
  intros Hbad s.
  assert (invalid config options) as Hinv.
  { destruct Hbad as [Hlt|Hkey]; [by left|right].
    rewrite wellFormedKey_checked in Hkey.
    by destruct (every (lockKeys options) isString). }
  destruct (invalid_trace config frames f options [] Hinv) as [e He].
  change (run config frames f options = mkState (Returned (Failed e)) [] [])
    in He.
  assert (s = mkState (Returned (Failed e)) [] []) as ->.
  { subst s. unfold trace. rewrite He.
    by apply (returned_exec _ _ _ _ _ evs (Failed e)). }
  rewrite He. repeat split; try done. by exists e.
Qed.

Lemma validation_has_no_side_effect_witness :
  ttl invalidTtlCall < minimumTtl defaults
  ∧ log (trace defaults "" (Returns Undefined) invalidTtlCall
               [LockSettled 0 (inl 1%nat); Tick; Finally; UnlockSettled None])
    = [].
Proof.
  split; [done|].
  apply (validation_has_no_side_effect
           defaults "" (Returns Undefined) invalidTtlCall
           [LockSettled 0 (inl 1%nat); Tick; Finally; UnlockSettled None]).
  left. done.
Defined.

(** C9: rejection is by the strict comparison [lockTtl < minimumTtl]: with a
    well-formed key, a [lockTtl] equal to [minimumTtl] passes validation and
    a lock is requested for every key with that TTL, although the error for
    smaller values says the TTL must be more than [minimumTtl]. *)
Theorem ttl_equal_to_minimum_is_accepted
    (config : Config) (frames : string) (f : Task) (options : Options) :
  ttl options = minimumTtl config →
  wellFormedKey (lockKey options) →
  let s := run config frames f options in
  acquires (log s) = lockKeys options
  ∧ (∀ key,
       key ∈ lockKeys options → Lock key (minimumTtl config) ∈ log s)
  ∧ (lockKeys options ≠ [] →
     phase s = Acquiring (map (λ _, None) (lockKeys options)))
  ∧ ∀ options',
      ttl options' < minimumTtl config →
      outcome (run config frames f options')
      = Some (Failed (ref (Errors.Error frames
                             ("TTL must be more than "
                              +:+ pretty (minimumTtl config) +:+ " ms!")))).
Proof.
  intros Heq Hkey s.
  apply wellFormedKey_checked in Hkey.
  assert ((ttl options <? minimumTtl config) = false) as Hlt by lia.
  split; [|split; [|split]].
  4:{ intros options' Hlt'. unfold run.
      by replace (ttl options' <? minimumTtl config) with true by lia. }
  all: subst s; unfold run; rewrite Hlt, Hkey; simpl; unfold proceed.
  all: destruct (lockKeys options) as [|k ks] eqn:Hk.
  - unfold start. by destruct f.
  - simpl. rewrite app_nil_r. unfold acquires.
    change (Lock k (ttl options) :: map (λ key, Lock key (ttl options)) ks)
      with (map (λ key, Lock key (ttl options)) (k :: ks)).
    rewrite (omap_map_Some _ _ id) by done. simpl. f_equal. apply map_id.
  - intros key Hin. by apply elem_of_nil in Hin.
  - intros key Hin. simpl. rewrite app_nil_r, <- Heq.
    change (Lock k (ttl options) :: map (λ key, Lock key (ttl options)) ks)
      with (map (λ key, Lock key (ttl options)) (k :: ks)).
    by apply (list_elem_of_fmap_2 (λ key, Lock key (ttl options))).
  - done.
  - done.
Qed.

Lemma ttl_equal_to_minimum_is_accepted_witness :
  ttl minimumTtlCall = minimumTtl defaults
  ∧ acquires (log (run defaults "" ReturnsPromise minimumTtlCall))
    = [Str "lock-key"].
Proof.
  split; [done|].
  apply (ttl_equal_to_minimum_is_accepted defaults "" ReturnsPromise
                                          minimumTtlCall).
  - done.
  - left. by exists "lock-key".
Defined.

(** ** A task that throws *)

Lemma held_all (s : State) : unlocks (log s) = [] → held s = granted s.
Proof.
  intros H. unfold held. rewrite H. apply filter_all.
  intros h. apply not_elem_of_nil.
Qed.

Lemma thrown_trace config frames e options evs :
  calls (log (trace config frames (Throws e) options evs)) ≠ [] →
  ∃ g, trace config frames (Throws e) options evs
       = mkState (Returned (Failed e)) g (acquisition options ++ [CallTask])
       ∧ length g = length (lockKeys options).
Proof.
  pose proof (reached_trace config frames (Throws e) options evs) as H.
  destruct H as [e' Hv|slots g Hv Hlen Hm Hg|error g Hv|e' g Hv Hf Hlen
                |iv g l Hv Hf Hi Hc Hb Hq Hg Hlen Hlog
                |iv g l Hv Hf Hi Hd Hc Hb Hg Hlen Hlog
                |iv r o g l Hv Hf Hd Hs Hb Hg Hlen Hlog]; simpl; intros Hcalls.
  - done.
  - by rewrite calls_acquisition in Hcalls.
  - by rewrite calls_acquisition in Hcalls.
  - simplify_eq. eauto.
  - by destruct (Hf e).
  - by destruct (Hf e).
  - by destruct (Hf e).
Qed.

Lemma thrown_log options :
  arms (acquisition options ++ [CallTask]) = []
  ∧ unlocks (acquisition options ++ [CallTask]) = []
  ∧ extends (acquisition options ++ [CallTask]) = []
  ∧ calls (acquisition options ++ [CallTask]) = [()].
Proof.
  unfold arms, unlocks, extends, calls. rewrite !omap_app.
  fold (arms (acquisition options)) (unlocks (acquisition options))
       (extends (acquisition options)) (calls (acquisition options)).
  by rewrite arms_acquisition, unlocks_acquisition, extends_acquisition,
       calls_acquisition.
Qed.

(** C10: when [f] throws instead of returning a promise, [run] rejects with
    what [f] threw; the timer is never armed and [unlock] is never called, so
    every lock acquired for the call stays held. *)
Theorem sync_throw_skips_release
    (config : Config) (frames : string) (e : Value) (options : Options)
    (evs : list Event) :
  calls (log (trace config frames (Throws e) options evs)) ≠ [] →
  let s := trace config frames (Throws e) options evs in
  outcome s = Some (Failed e)
  ∧ arms (log s) = []
  ∧ extends (log s) = []
  ∧ unlocks (log s) = []
  ∧ length (granted s) = length (lockKeys options)
  ∧ held s = granted s.
Proof.
  intros Hcalls s.
  destruct (thrown_trace config frames e options evs Hcalls) as (g & Hs & Hg).
  destruct (thrown_log options) as (Ha & Hu & He & _).
  assert (unlocks (log s) = []) as Hnone by (subst s; by rewrite Hs).
  subst s. rewrite (held_all _ Hnone). rewrite Hs. simpl. done.
Qed.

Lemma sync_throw_skips_release_witness :
  calls (log (trace defaults "" (Throws boom) oneKey
                    [LockSettled 0 (inl 7%nat)])) ≠ []
  ∧ outcome (trace defaults "" (Throws boom) oneKey
                   [LockSettled 0 (inl 7%nat)]) = Some (Failed boom)
  ∧ held (trace defaults "" (Throws boom) oneKey [LockSettled 0 (inl 7%nat)])
    = [7%nat].
Proof.
  assert (calls (log (trace defaults "" (Throws boom) oneKey
                            [LockSettled 0 (inl 7%nat)])) ≠ []) as H by done.
  split; [exact H|].
  destruct (sync_throw_skips_release
              defaults "" boom oneKey [LockSettled 0 (inl 7%nat)] H)
    as (Ho & _ & _ & _ & _ & Hh).
  split; [exact Ho|]. rewrite Hh. reflexivity.
Defined.

(** The counterpart for a task that returns: once such a call has settled
    after [f] was called, [unlock] was called exactly once for every lock
    granted, one per key. *)
Lemma release_once_when_task_returns
    (config : Config) (frames : string) (f : Task) (options : Options)
    (evs : list Event) (o : Outcome) :
  (∀ e, f ≠ Throws e) →
  outcome (trace config frames f options evs) = Some o →
  calls (log (trace config frames f options evs)) ≠ [] →
  let s := trace config frames f options evs in
  granted s ≡ₚ unlocks (log s)
  ∧ length (unlocks (log s)) = length (lockKeys options)
  ∧ calls (log s) = [()].
Proof.
  intros Hf Ho Hcalls s. subst s.
  pose proof (reached_trace config frames f options evs) as H.
  destruct H as [e' Hv|slots g Hv Hlen Hm Hg|error g Hv|e' g Hv Hf' Hlen
                |iv g l Hv Hf' Hi Hc Hb Hq Hg Hlen Hlog
                |iv g l Hv Hf' Hi Hd Hc Hb Hg Hlen Hlog
                |iv r o' g l Hv Hf' Hd Hs Hb Hg Hlen Hlog]; simpl in *;
    try done.
  - by rewrite calls_acquisition in Hcalls.
  - by destruct (Hf e').
  - subst l. by rewrite unlocks_released, calls_released.
Qed.

(** C4, at an input where it fails: one key, the lock is granted, [f] throws.
    The call has reached the task, [run] has returned with the error, and no
    [unlock] was or will be called: the lock stays held until its TTL ends. *)
Theorem release_skipped_when_task_throws :
  let s := trace defaults "" (Throws boom) oneKey [LockSettled 0 (inl 7%nat)] in
  granted s = [7%nat]
  ∧ calls (log s) = [()]
  ∧ outcome s = Some (Failed boom)
  ∧ unlocks (log s) = []
  ∧ ∀ evs, unlocks (log (exec defaults "" (Throws boom) oneKey s evs)) = [].
Proof.
  repeat split.
  intros evs.
  by rewrite (returned_exec defaults "" (Throws boom) oneKey _ evs
                            (Failed boom)).
Qed.

(** ** The phases of a trace *)

Lemma acquiring_trace config frames f options evs slots :
  phase (trace config frames f options evs) = Acquiring slots →
  ∃ g, trace config frames f options evs
       = mkState (Acquiring slots) g (acquisition options)
       ∧ g ≡ₚ omap id slots.
Proof.
  pose proof (reached_trace config frames f options evs) as H.
  destruct H; simpl; intros Hp; simplify_eq. eauto.
Qed.

Lemma executing_trace config frames f options evs iv :
  phase (trace config frames f options evs) = Executing iv →
  ∃ g, trace config frames f options evs
       = mkState (Executing iv) g (execution config options iv)
       ∧ interval iv = true
       ∧ 0 ≤ extendLockCounter iv
       ∧ g ≡ₚ locks iv
       ∧ (behind iv ≤ rounds config iv)%nat
       ∧ (deferred iv = Pending → behind iv = 0%nat).
Proof.
  pose proof (reached_trace config frames f options evs) as H.
  destruct H; simpl; intros Hp; simplify_eq. eauto 10.
Qed.

Lemma releasing_trace config frames f options evs iv :
  phase (trace config frames f options evs) = Releasing iv →
  ∃ g, trace config frames f options evs
       = mkState (Releasing iv) g (released config options iv)
       ∧ interval iv = false
       ∧ deferred iv ≠ Pending
       ∧ g ≡ₚ locks iv
       ∧ (behind iv ≤ rounds config iv)%nat.
Proof.
  pose proof (reached_trace config frames f options evs) as H.
  destruct H; simpl; intros Hp; simplify_eq. eauto 10.
Qed.

Lemma unlock_in_log (l : list Action) (h : Handle) :
  Unlock h ∈ l → h ∈ unlocks l.
Proof. intros H. apply list_elem_of_omap. by exists (Unlock h). Qed.

Lemma no_unlock (l pre post : list Action) (h : Handle) :
  unlocks l = [] → l ≠ pre ++ Unlock h :: post.
Proof.
  intros Hnone ->. assert (h ∈ unlocks (pre ++ Unlock h :: post)) as Hin.
  { apply unlock_in_log. rewrite elem_of_app, elem_of_cons. auto. }
  rewrite Hnone in Hin. by apply not_elem_of_nil in Hin.
Qed.

(** ** Acquisition *)

(** C3, as the code has it: when the acquisition of a key fails, [run] fails
    with the error of the lock client, unchanged; the task is never called,
    the timer is never armed, and [unlock] is never called, so the locks the
    call had been granted stay held. *)
Theorem acquisition_failure_passes_through
    (config : Config) (frames : string) (f : Task) (options : Options)
    (evs : list Event) (slots : list (option Handle)) (i : nat)
    (error : Object) (evs' : list Event) :
  phase (trace config frames f options evs) = Acquiring slots →
  slots !! i = Some None →
  let s := exec config frames f options
                (step config frames f options
                      (trace config frames f options evs)
                      (LockSettled i (inr error))) evs' in
  outcome s = Some (Failed (ref error))
  ∧ calls (log s) = []
  ∧ arms (log s) = []
  ∧ extends (log s) = []
  ∧ unlocks (log s) = []
  ∧ granted s ≡ₚ omap id slots
  ∧ held s = granted s.
Proof.
  intros Hp Hi s.
  destruct (acquiring_trace _ _ _ _ _ _ Hp) as (g & Htr & Hg).
  assert (s = mkState (Returned (Failed (ref error))) g (acquisition options))
    as Hs.
  { subst s. rewrite Htr. unfold step. simpl. rewrite Hi.
    by apply (returned_exec _ _ _ _ _ evs' (Failed (ref error))). }
  assert (unlocks (log s) = []) as Hnone.
  { rewrite Hs. apply unlocks_acquisition. }
  rewrite (held_all _ Hnone). rewrite Hs. simpl.
  by rewrite calls_acquisition, arms_acquisition, extends_acquisition,
       unlocks_acquisition.
Qed.

Lemma acquisition_failure_passes_through_witness :
  phase (trace defaults "" ReturnsPromise twoKeys [LockSettled 0 (inl 1%nat)])
  = Acquiring [Some 1%nat; None]
  ∧ outcome partialAcquisition = Some (Failed (ref lockError))
  ∧ unlocks (log partialAcquisition) = [].
Proof.
  split; [reflexivity|].
  pose proof (acquisition_failure_passes_through
                defaults "" ReturnsPromise twoKeys [LockSettled 0 (inl 1%nat)]
                [Some 1%nat; None] 1 lockError [] eq_refl eq_refl) as H.
  destruct H as (Ho & _ & _ & _ & Hu & _). split; [exact Ho|exact Hu].
Defined.

(** C3 as stated fails: the first key is granted, the second is refused;
    [run] has returned and the first lock is still held. *)
Lemma partial_acquisition_stays_held :
  outcome partialAcquisition = Some (Failed (ref lockError))
  ∧ granted partialAcquisition = [1%nat]
  ∧ unlocks (log partialAcquisition) = []
  ∧ held partialAcquisition = [1%nat]
  ∧ held partialAcquisition ≠ [].
Proof. by vm_compute. Qed.

(** ** The extension timer *)

(** C2: a tick first increments the counter.  When the incremented count
    exceeds [maxExtendLockCount] the tick cancels the task and calls [extend]
    on no lock; otherwise it calls [extend] once on every lock.  So at the
    first tick over the cap, every lock has been extended exactly
    [maxExtendLockCount] times. *)
Theorem extension_cap_counts_ticks
    (config : Config) (frames : string) (f : Task) (options : Options)
    (evs : list Event) (iv : Invocation) :
  phase (trace config frames f options evs) = Executing iv →
  let s := trace config frames f options evs in
  let s' := step config frames f options s Tick in
  ∃ iv',
    phase s' = Executing iv'
    ∧ locks iv' = locks iv
    ∧ extendLockCounter iv' = extendLockCounter iv + 1
    ∧ (maxExtendLockCount config < extendLockCounter iv' →
       deferred iv' = cancel (deferred iv)
       ∧ log s' = log s)
    ∧ (extendLockCounter iv' ≤ maxExtendLockCount config →
       deferred iv' = deferred iv
       ∧ log s'
         = log s ++ map (λ lock, Extend lock (ttl options)) (locks iv))
    ∧ (extendLockCounter iv' = maxExtendLockCount config + 1 →
       extends (log s')
       = concat (replicate (Z.to_nat (maxExtendLockCount config)) (locks iv))).
Proof.
  intros Hp s s'.
  destruct (executing_trace _ _ _ _ _ _ Hp) as (g & Htr & Hi & Hc & Hg).
  subst s' s. rewrite Htr. unfold step. simpl. rewrite Hi. unfold tick. simpl.
  destruct (maxExtendLockCount config <? extendLockCounter iv + 1) eqn:Hcap;
    simpl.
  - eexists. split; [reflexivity|]. simpl.
    repeat split; try done; try lia.
    + by rewrite app_nil_r.
    + intros Heq. rewrite app_nil_r, extends_execution. unfold rounds.
      f_equal. f_equal. lia.
  - destruct (isPending (deferred iv)); simpl;
      (eexists; split; [reflexivity|]); simpl;
      repeat split; try done; lia.
Qed.

Lemma extension_cap_counts_ticks_witness :
  phase (trace smallCap "" ReturnsPromise oneKey (longTask 2))
  = Executing twoRounds
  ∧ extends (log (step smallCap "" ReturnsPromise oneKey
                       (trace smallCap "" ReturnsPromise oneKey (longTask 2))
                       Tick))
    = [7%nat; 7%nat].
Proof.
  assert (phase (trace smallCap "" ReturnsPromise oneKey (longTask 2))
          = Executing twoRounds) as H by (vm_compute; reflexivity).
  split; [exact H|].
  destruct (extension_cap_counts_ticks
              smallCap "" ReturnsPromise oneKey (longTask 2) twoRounds H)
    as (iv' & Hp & Hl & Hc & _ & _ & Hcap).
  apply Hcap. rewrite Hc. reflexivity.
Defined.

Lemma no_disarm (l a b : list Action) :
  disarms l = [] → l ≠ a ++ ClearInterval :: b.
Proof.
  intros Hnone ->. unfold disarms in Hnone. rewrite omap_app in Hnone.
  by apply app_eq_nil in Hnone as [_ ?].
Qed.

Lemma disarms_thrown options :
  disarms (acquisition options ++ [CallTask]) = [].
Proof.
  unfold disarms. rewrite omap_app. fold (disarms (acquisition options)).
  by rewrite disarms_acquisition.
Qed.

Lemma disarms_rounds options (n : nat) (ls : list Handle) :
  disarms (concat (replicate n (round options ls))) = [].
Proof.
  unfold disarms. rewrite omap_concat_replicate. unfold round.
  rewrite (omap_map_None _ _ ls) by done. apply concat_replicate_nil.
Qed.

Lemma extends_rounds options (n : nat) (ls : list Handle) :
  extends (concat (replicate n (round options ls)))
  = concat (replicate n ls).
Proof.
  unfold extends. rewrite omap_concat_replicate. unfold round.
  rewrite (omap_map_Some _ _ id ls) by done. by rewrite map_id.
Qed.

(** Where [clearInterval] sits in the log of a call that is releasing, and
    what comes after it. *)
Lemma released_clear config options iv (a b : list Action) :
  released config options iv = a ++ ClearInterval :: b →
  a = acquisition options
      ++ [CallTask; SetInterval (intervalTime config options)]
      ++ concat (replicate (rounds config iv - behind iv)
                           (round options (locks iv)))
  ∧ b = concat (replicate (behind iv) (round options (locks iv)))
        ++ map Unlock (locks iv).
Proof.
  intros Heq. unfold released in Heq. rewrite !app_assoc in Heq.
  symmetry in Heq. apply app_cons_split in Heq as (k & Ha & Hk).
  - destruct k as [|c k].
    + rewrite app_nil_r in Ha. simpl in Hk. injection Hk as Hb.
      by rewrite Ha, <- !app_assoc.
    + injection Hk as <- Hk. exfalso. revert Hk. apply no_disarm.
      unfold disarms. rewrite omap_app. fold (disarms (map Unlock (locks iv))).
      fold (disarms (concat (replicate (behind iv)
                                       (round options (locks iv))))).
      rewrite disarms_rounds. by apply omap_map_None.
  - intros Hin.
    assert (() ∈ disarms ((acquisition options
                            ++ [CallTask;
                                SetInterval (intervalTime config options)])
                           ++ concat (replicate (rounds config iv - behind iv)
                                                (round options (locks iv)))))
      as Hd.
    { apply list_elem_of_omap. by exists ClearInterval. }
    unfold disarms in Hd. rewrite !omap_app in Hd.
    fold (disarms (acquisition options)) in Hd.
    fold (disarms (concat (replicate (rounds config iv - behind iv)
                                     (round options (locks iv))))) in Hd.
    rewrite disarms_acquisition, disarms_rounds in Hd.
    by apply not_elem_of_nil in Hd.
Qed.

(** *** Ticks that fire while the task is pending *)

Lemma orderly_open (s : State) :
  disarms (log s) = [] →
  (∀ iv, phase s = Executing iv → behind iv = 0%nat) →
  orderly s.
Proof.
  intros Hd Hb. split; [done|]. intros a b Heq.
  by destruct (no_disarm _ a b Hd).
Qed.

Lemma orderly_step config frames f options s ev :
  Reached config frames f options s →
  orderly s →
  match ev, phase s with
  | Tick, Executing iv => isPending (deferred iv)
  | _, _ => true
  end = true →
  orderly (step config frames f options s ev).
Proof.
  intros Hr Ho Hev.
  pose proof (reached_step config frames f options s ev Hr) as Hr'.
  destruct Hr as [e Hv|slots g Hv Hlen Hm Hg|error g Hv|e g Hv Hf Hlen
                 |iv g l Hv Hf Hi Hc Hbr Hq Hg Hlen Hlog
                 |iv g l Hv Hf Hi Hd Hc Hbr Hg Hlen Hlog
                 |iv r o g l Hv Hf Hd Hs Hbr Hg Hlen Hlog].
  - by rewrite (returned_step _ _ _ _ _ ev (Failed e)).
  - (* acquiring: the log has no [clearInterval] yet *)
    clear Hr'. unfold step. simpl.
    destruct ev as [i r'|r'| | |r'| |r']; try exact Ho.
    destruct (slots !! i) as [[h|]|]; try exact Ho.
    destruct r' as [lock|error].
    2:{ apply orderly_open; [apply disarms_acquisition|by intros iv' [=]]. }
    unfold proceed. destruct (mapM id (<[i:=Some lock]> slots)) as [ls|].
    2:{ simpl. apply orderly_open; [|by intros iv' [=]]. simpl.
        rewrite app_nil_r. apply disarms_acquisition. }
    unfold start. destruct f; simpl; apply orderly_open; simpl;
      try apply disarms_thrown; try (by intros iv' [= <-]); try done.
    + by rewrite <- (execution_0 config options
        ls (Fulfilled v) (mkObject ObjectProto []) true 0 0),
        disarms_execution.
    + by rewrite <- (execution_0 config options
        ls Pending (mkObject ObjectProto []) true 0 0),
        disarms_execution.
  - by rewrite (returned_step _ _ _ _ _ ev (Failed (ref error))).
  - by rewrite (returned_step _ _ _ _ _ ev (Failed e)).
  - (* executing *)
    subst l. pose proof Ho as [Hb Hl].
    specialize (Hb iv eq_refl). simpl in Hev.
    revert Hr'. unfold step. simpl.
    destruct ev as [i r'|r'| | |r'| |r']; try (intros _; exact Ho).
    + destruct (isPending (deferred iv)); [|intros _; exact Ho].
      intros _. split; [|done]. by intros iv' [= <-].
    + intros _. split; [|done]. by intros iv' [= <-].
    + rewrite Hi. unfold tick. simpl.
      destruct (_ <? _); simpl; [|rewrite Hev; simpl]; intros _;
        apply orderly_open; simpl; try (by intros iv' [= <-]);
        unfold disarms; rewrite omap_app;
        fold (disarms (execution config options iv));
        rewrite disarms_execution; [done|by apply omap_map_None].
    + destruct (extending iv); [intros _; exact Ho|].
      intros _. split; [|done]. intros iv' [= <-]. by destruct r'.
    + destruct (isPending (deferred iv)); [intros _; exact Ho|]. simpl.
      intros Hr'. split; [done|]. intros a b Heq. simpl in Heq.
      rewrite (release_log config options iv Hbr) in Heq.
      apply released_clear in Heq as [_ ->].
      unfold extends. rewrite omap_app.
      fold (extends (concat (replicate (behind iv)
                                       (round options (locks iv))))).
      rewrite extends_rounds, Hb. simpl. by apply omap_map_None.
  - (* releasing: the log is closed *)
    destruct Ho as [Hb Hl].
    destruct (closed_step config frames f options
                (mkState (Releasing iv) g l) ev I) as (Hc' & Hl' & _).
    split.
    + intros iv' Hp. unfold closed in Hc'. by rewrite Hp in Hc'.
    + by rewrite Hl'.
  - by rewrite (returned_step _ _ _ _ _ ev o).
Qed.

Lemma orderly_exec config frames f options s evs :
  Reached config frames f options s →
  orderly s →
  timely config frames f options s evs = true →
  orderly (exec config frames f options s evs).
Proof.
  revert s. induction evs as [|ev evs IH]; intros s Hr Ho Ht; [done|].
  simpl in Ht. apply andb_prop in Ht as [Hev Ht].
  apply IH; [by apply reached_step| |done].
  by apply orderly_step.
Qed.

Lemma orderly_run config frames f options :
  orderly (run config frames f options).
Proof.
  unfold run.
  destruct (ttl options <? minimumTtl config);
    [apply orderly_open; [done|by intros iv' [=]]|].
  destruct (negb (every (lockKeys options) isString));
    [apply orderly_open; [done|by intros iv' [=]]|].
  unfold proceed. fold (acquisition options).
  destruct (mapM id _) as [ls|].
  2:{ simpl. apply orderly_open; [|by intros iv' [=]]. simpl.
      rewrite app_nil_r. apply disarms_acquisition. }
  unfold start. destruct f; simpl; apply orderly_open; simpl;
    try apply disarms_thrown; try (by intros iv' [= <-]); try done.
  - by rewrite <- (execution_0 config options
      ls (Fulfilled v) (mkObject ObjectProto []) true 0 0),
      disarms_execution.
  - by rewrite <- (execution_0 config options
      ls Pending (mkObject ObjectProto []) true 0 0),
      disarms_execution.
Qed.

Lemma punctual_orderly config frames f options evs :
  punctual config frames f options evs = true →
  orderly (trace config frames f options evs).
Proof.
  intros Hp. apply orderly_exec; [apply reached_run|apply orderly_run|done].
Qed.




(** ** The terminal outcome *)

(** C1, as the code has it: once the [finally] handler has run, the call
    settles when the unlocks do.  A failed release makes it fail with an
    UnlockError whatever the task did; after a clean release a cancelled task
    makes it fail with an ExtendLockError, a failed task with the task's own
    error, unchanged, and a fulfilled task makes it succeed with the task's
    value. *)
Theorem outcome_priority
    (config : Config) (frames : string) (f : Task) (options : Options)
    (evs : list Event) (iv : Invocation) (r : option Object) :
  phase (trace config frames f options evs) = Releasing iv →
  ∃ o,
    outcome (step config frames f options
                  (trace config frames f options evs) (UnlockSettled r))
    = Some o
    ∧ match r with
      | Some error => instanceOf UnlockErrorProto o
      | None =>
          match deferred iv with
          | Cancelled => instanceOf ExtendLockErrorProto o
          | Rejected e => o = Failed e
          | Fulfilled v => o = Resolved v
          | Pending => False
          end
      end.
Proof.
  intros Hp.
  destruct (releasing_trace _ _ _ _ _ _ Hp) as (g & Htr & Hi & Hd & Hg).
  rewrite Htr. unfold step. simpl.
  destruct r as [error|]; simpl; [by eexists|].
  destruct (deferred iv) as [|v|e|]; simpl; [done|by eexists..].
Qed.

Lemma outcome_priority_witness :
  phase (trace defaults "" ReturnsPromise oneKey failingTask)
  = Releasing failedTask
  ∧ ∃ o,
      outcome (step defaults "" ReturnsPromise oneKey
                    (trace defaults "" ReturnsPromise oneKey failingTask)
                    (UnlockSettled None))
      = Some o
      ∧ o = Failed taskError.
Proof.
  assert (phase (trace defaults "" ReturnsPromise oneKey failingTask)
          = Releasing failedTask) as H by reflexivity.
  split; [exact H|].
  exact (outcome_priority defaults "" ReturnsPromise oneKey failingTask
                          failedTask None H).
Defined.

(** C1 as stated fails: the task rejects with its own error, or the failure
    of an extension cancels it, and the release fails; the call then fails
    with an UnlockError, not with the task's error nor with an
    ExtendLockError. *)
Lemma unlock_error_shadows_task_error :
  (∃ iv, phase (trace defaults "" ReturnsPromise oneKey failingTask)
         = Releasing iv
         ∧ deferred iv = Rejected taskError)
  ∧ (∃ ps, outcome (trace defaults "" ReturnsPromise oneKey
                          (failingTask ++ [UnlockSettled (Some unlockingError)]))
           = Some (Failed (Obj UnlockErrorProto ps)))
  ∧ outcome (trace defaults "" ReturnsPromise oneKey
                   (failingTask ++ [UnlockSettled (Some unlockingError)]))
    ≠ Some (Failed taskError)
  ∧ (∃ iv, phase (trace defaults "" ReturnsPromise oneKey cancelledTask)
           = Releasing iv
           ∧ deferred iv = Cancelled)
  ∧ (∃ ps, outcome (trace defaults "" ReturnsPromise oneKey
                          (cancelledTask
                           ++ [UnlockSettled (Some unlockingError)]))
           = Some (Failed (Obj UnlockErrorProto ps))).
Proof.
  split; [by eexists|]. split; [by eexists|]. split; [by vm_compute|].
  split; by eexists.
Qed.

(** ** The errors of the runner *)

(** Every ExtendLockError the runner makes has [extendLockLimit] undefined:
    the constructor is called with the message alone. *)
Lemma extend_lock_error_without_limit
    (config : Config) (frames : string) (f : Task) (options : Options)
    (evs : list Event) (iv : Invocation) :
  phase (trace config frames f options evs) = Releasing iv →
  deferred iv = Cancelled →
  ∃ ps,
    outcome (step config frames f options
                  (trace config frames f options evs) (UnlockSettled None))
    = Some (Failed (Obj ExtendLockErrorProto ps))
    ∧ own "extendLockLimit" ps = Some Undefined
    ∧ own "message" ps = Some (get (extendLockError iv) "message").
Proof.
  intros Hp Hd.
  destruct (releasing_trace _ _ _ _ _ _ Hp) as (g & Htr & _).
  rewrite Htr. unfold step. simpl. rewrite Hd. simpl.
  eexists. split; [reflexivity|]. done.
Qed.

(** C7, at an input where it fails: the default cap of 20, one key, a task
    still pending at the twenty-first tick.  The call fails with an
    ExtendLockError after twenty extensions, and the error's
    [extendLockLimit] is undefined, not 20. *)
Theorem extend_lock_error_limit_is_undefined :
  ∃ ps,
    outcome (trace defaults "" ReturnsPromise ttl110 overCap)
    = Some (Failed (Obj ExtendLockErrorProto ps))
    ∧ extends (log (trace defaults "" ReturnsPromise ttl110 overCap))
      = replicate 20 7%nat
    ∧ own "extendLockLimit" ps = Some Undefined
    ∧ own "extendLockLimit" ps
      ≠ Some (Num (maxExtendLockCount defaults)).
Proof.
  eexists. split; [by vm_compute|]. split; [by vm_compute|].
  split; [by vm_compute|]. by vm_compute.
Qed.

(** C8, as the code has it: the UnlockError of a failed release is made from
    a message alone.  The message names the lock key, says that the TTL will
    unlock the resource, and ends with the release error rendered as text;
    the stack is the release error's; [extra] is undefined. *)
Theorem unlock_error_describes_cause
    (config : Config) (frames : string) (f : Task) (options : Options)
    (evs : list Event) (iv : Invocation) (error : Object) :
  phase (trace config frames f options evs) = Releasing iv →
  ∃ u,
    outcome (step config frames f options
                  (trace config frames f options evs)
                  (UnlockSettled (Some error)))
    = Some (Failed (ref u))
    ∧ proto u = UnlockErrorProto
    ∧ get u "name" = Str "UnlockError"
    ∧ get u "message"
      = Str ("[Mutex " +:+ ToString (lockKey options)
             +:+ "] Error when unlocking resource, no worries we've set a TTL "
             +:+ pretty (ttl options)
             +:+ " ms, it'll unlock automatically. Error "
             +:+ ToString (ref error))
    ∧ get u "stack" = get error "stack"
    ∧ get u "extra" = Undefined.
Proof.
  intros Hp.
  destruct (releasing_trace _ _ _ _ _ _ Hp) as (g & Htr & _).
  rewrite Htr. unfold step. simpl.
  eexists. split; [reflexivity|]. done.
Qed.

Lemma unlock_error_describes_cause_witness :
  phase (trace defaults "" ReturnsPromise oneKey failingTask)
  = Releasing failedTask
  ∧ ∃ u,
      outcome (step defaults "" ReturnsPromise oneKey
                    (trace defaults "" ReturnsPromise oneKey failingTask)
                    (UnlockSettled (Some unlockingError)))
      = Some (Failed (ref u))
      ∧ get u "extra" = Undefined.
Proof.
  assert (phase (trace defaults "" ReturnsPromise oneKey failingTask)
          = Releasing failedTask) as H by reflexivity.
  split; [exact H|].
  destruct (unlock_error_describes_cause
              defaults "" ReturnsPromise oneKey failingTask failedTask
              unlockingError H) as (u & Ho & _ & _ & _ & _ & He).
  exists u. split; [exact Ho|exact He].
Defined.

(** C8 as stated fails: the release fails with an error object; the
    UnlockError holds that object in none of its properties, its [extra] is
    undefined, and a different release error gives the very same
    UnlockError. *)
Lemma unlock_error_has_no_cause :
  ∃ ps,
    outcome (releaseFails unlockingError)
    = Some (Failed (Obj UnlockErrorProto ps))
    ∧ own "extra" ps = Some Undefined
    ∧ Forall (λ kv, kv.2 ≠ ref unlockingError) ps
    ∧ otherUnlockingError ≠ unlockingError
    ∧ outcome (releaseFails otherUnlockingError)
      = outcome (releaseFails unlockingError).
Proof.
  eexists. split; [by vm_compute|]. split; [by vm_compute|].
  split; [|split; [done|by vm_compute]].
  repeat constructor; done.
Qed.


(** * Further properties of the runner *)

(** ** Validation *)

(** X2: a key that is neither a string nor an array of strings (a missing
    key is [undefined]), with a valid TTL, is rejected with the message
    [Lock key must be a string or an array of string]. *)
Theorem malformed_key_message
    (config : Config) (frames : string) (f : Task) (options : Options) :
  minimumTtl config ≤ ttl options →
  ¬ wellFormedKey (lockKey options) →
  ∃ e,
    outcome (run config frames f options) = Some (Failed (ref e))
    ∧ proto e = ErrorProto
    ∧ get e "message"
      = Str "Lock key must be a string or an array of string"
    ∧ ToString (ref e)
      = "Error: Lock key must be a string or an array of string".
Proof.
  intros Httl Hkey. rewrite wellFormedKey_checked in Hkey.
  unfold run.
  replace (ttl options <? minimumTtl config) with false by lia.
  destruct (every (lockKeys options) isString); [done|]. simpl.
  eexists. split; [reflexivity|]. done.
Qed.

Lemma malformed_key_message_witness :
  minimumTtl defaults ≤ ttl (mkOptions Undefined None)
  ∧ ∃ e,
      outcome (run defaults "" ReturnsPromise (mkOptions Undefined None))
      = Some (Failed (ref e))
      ∧ get e "message"
        = Str "Lock key must be a string or an array of string".
Proof.
  split; [done|].
  destruct (malformed_key_message defaults "" ReturnsPromise
                                  (mkOptions Undefined None))
    as (e & Ho & _ & Hm & _).
  - done.
  - intros [[s Hs]|(xs & Hx & _)]; discriminate.
  - exists e. split; [exact Ho|exact Hm].
Defined.


(** ** What every log holds *)

Lemma valid_call config options :
  minimumTtl config ≤ ttl options →
  wellFormedKey (lockKey options) →
  ¬ invalid config options.
Proof.
  intros Httl Hkey [Hlt|Hbad]; [lia|].
  apply wellFormedKey_checked in Hkey. congruence.
Qed.

Lemma length_concat_replicate {A} (n : nat) (l : list A) :
  length (concat (replicate n l)) = (n * length l)%nat.
Proof.
  induction n as [|n IH]; [done|].
  change (length (l ++ concat (replicate n l)) = (S n * length l)%nat).
  rewrite length_app, IH. lia.
Qed.

Lemma rounds_bound config iv :
  (rounds config iv ≤ Z.to_nat (maxExtendLockCount config))%nat.
Proof. unfold rounds. lia. Qed.

Lemma rounds_hold_extends_only {B} (p : Action → option B) options
    (n : nat) (ls : list Handle) :
  (∀ h t, p (Extend h t) = None) →
  omap p (concat (replicate n (round options ls))) = [].
Proof.
  intros Hp. rewrite omap_concat_replicate. unfold round.
  rewrite (omap_map_None _ _ ls) by done. apply concat_replicate_nil.
Qed.

Lemma unlocks_hold_unlocks_only {B} (p : Action → option B)
    (ls : list Handle) :
  (∀ h, p (Unlock h) = None) → omap p (map Unlock ls) = [].
Proof. intros Hp. by apply omap_map_None. Qed.

(** X3: the calls of a call that passed validation come in one order, each
    step once.  The log starts with one [redlock.lock] per key, in the order
    of the keys; then comes the call of the task, and right after it
    [setInterval]; [clearInterval] comes later and once, and the unlocks
    after it.  None of [redlock.lock], the task and [setInterval] is called
    a second time. *)
Theorem each_step_happens_once
    (config : Config) (frames : string) (f : Task) (options : Options)
    (evs : list Event) :
  minimumTtl config ≤ ttl options →
  wellFormedKey (lockKey options) →
  ∃ rest,
    log (trace config frames f options evs) = acquisition options ++ rest
    ∧ (rest = []
       ∨ rest = [CallTask]
       ∨ ∃ rest',
           rest = CallTask :: SetInterval (intervalTime config options)
                  :: rest'
           ∧ acquires rest' = []
           ∧ calls rest' = []
           ∧ arms rest' = []
           ∧ ((disarms rest' = [] ∧ unlocks rest' = [])
              ∨ ∃ a b,
                  rest' = a ++ ClearInterval :: b
                  ∧ disarms a = [] ∧ unlocks a = [] ∧ disarms b = [])).
Proof.
  intros Httl Hkey.
  pose proof (valid_call config options Httl Hkey) as Hvalid.
  pose proof (reached_trace config frames f options evs) as H.
  destruct H as [e' Hv|slots g Hv Hlen Hm Hg|error g Hv|e' g Hv Hf' Hlen
                |iv g l Hv Hf' Hi Hc Hb Hq Hg Hlen Hlog
                |iv g l Hv Hf' Hi Hd Hc Hb Hg Hlen Hlog
                |iv r o' g l Hv Hf' Hd Hs Hb Hg Hlen Hlog]; simpl.
  - done.
  - exists []. rewrite app_nil_r. auto.
  - exists []. rewrite app_nil_r. auto.
  - exists [CallTask]. auto.
  - subst l. eexists. split; [reflexivity|]. right. right.
    eexists. split; [reflexivity|].
    unfold acquires, calls, arms, disarms, unlocks.
    rewrite !rounds_hold_extends_only by done. repeat split; auto.
  - subst l. eexists. split; [reflexivity|]. right. right.
    eexists. split; [reflexivity|].
    unfold acquires, calls, arms.
    rewrite !omap_app, !rounds_hold_extends_only by done. simpl.
    rewrite !omap_app, !rounds_hold_extends_only by done.
    rewrite !unlocks_hold_unlocks_only by done.
    repeat split. right. eexists _, _. split; [reflexivity|].
    unfold disarms, unlocks.
    rewrite omap_app, !rounds_hold_extends_only by done.
    by rewrite unlocks_hold_unlocks_only.
  - subst l. eexists. split; [reflexivity|]. right. right.
    eexists. split; [reflexivity|].
    unfold acquires, calls, arms.
    rewrite !omap_app, !rounds_hold_extends_only by done. simpl.
    rewrite !omap_app, !rounds_hold_extends_only by done.
    rewrite !unlocks_hold_unlocks_only by done.
    repeat split. right. eexists _, _. split; [reflexivity|].
    unfold disarms, unlocks.
    rewrite omap_app, !rounds_hold_extends_only by done.
    by rewrite unlocks_hold_unlocks_only.
Qed.

Lemma each_step_happens_once_witness :
  minimumTtl defaults ≤ ttl oneKey
  ∧ ∃ rest,
      log (trace defaults "" ReturnsPromise oneKey oneRound)
      = acquisition oneKey ++ rest
      ∧ (rest = []
         ∨ rest = [CallTask]
         ∨ ∃ rest',
             rest = CallTask :: SetInterval (intervalTime defaults oneKey)
                    :: rest'
             ∧ acquires rest' = []
             ∧ calls rest' = []
             ∧ arms rest' = []
             ∧ ((disarms rest' = [] ∧ unlocks rest' = [])
                ∨ ∃ a b,
                    rest' = a ++ ClearInterval :: b
                    ∧ disarms a = [] ∧ unlocks a = [] ∧ disarms b = [])).
Proof.
  split; [done|].
  apply (each_step_happens_once defaults "" ReturnsPromise oneKey oneRound).
  - done.
  - left. by exists "lock-key".
Defined.

(** X5: a call never extends its locks more than [maxExtendLockCount]
    times: at any moment the number of [lock.extend] calls made is at most
    the cap times the number of keys. *)
Theorem extensions_are_bounded
    (config : Config) (frames : string) (f : Task) (options : Options)
    (evs : list Event) :
  (length (extends (log (trace config frames f options evs)))
   ≤ Z.to_nat (maxExtendLockCount config) * length (lockKeys options))%nat.
Proof.
  pose proof (reached_trace config frames f options evs) as H.
  destruct H as [e' Hv|slots g Hv Hlen Hm Hg|error g Hv|e' g Hv Hf' Hlen
                |iv g l Hv Hf' Hi Hc Hb Hq Hg Hlen Hlog
                |iv g l Hv Hf' Hi Hd Hc Hb Hg Hlen Hlog
                |iv r o' g l Hv Hf' Hd Hs Hb Hg Hlen Hlog]; simpl.
  - lia.
  - rewrite extends_acquisition. simpl. lia.
  - rewrite extends_acquisition. simpl. lia.
  - destruct (thrown_log options) as (_ & _ & He & _). rewrite He. simpl. lia.
  - subst l. rewrite extends_execution, length_concat_replicate, Hlen.
    pose proof (rounds_bound config iv). nia.
  - subst l. rewrite extends_released by done.
    rewrite length_concat_replicate, Hlen.
    pose proof (rounds_bound config iv). nia.
  - subst l. rewrite extends_released by done.
    rewrite length_concat_replicate, Hlen.
    pose proof (rounds_bound config iv). nia.
Qed.

(** X6: when a task that returned (a value or a promise) has been called and
    [run] has settled, the timer was armed once and cleared once, and
    [unlock] was called once on every lock granted, one per key, whether the
    task succeeded, failed or was cancelled, and whether the release
    succeeded or not. *)
Theorem settled_call_released_every_lock
    (config : Config) (frames : string) (f : Task) (options : Options)
    (evs : list Event) (o : Outcome) :
  (∀ e, f ≠ Throws e) →
  outcome (trace config frames f options evs) = Some o →
  calls (log (trace config frames f options evs)) ≠ [] →
  let s := trace config frames f options evs in
  unlocks (log s) ≡ₚ granted s
  ∧ length (unlocks (log s)) = length (lockKeys options)
  ∧ arms (log s) = [intervalTime config options]
  ∧ disarms (log s) = [()].
Proof.
  intros Hf Ho Hcalls s. subst s.
  pose proof (reached_trace config frames f options evs) as H.
  destruct H as [e' Hv|slots g Hv Hlen Hm Hg|error g Hv|e' g Hv Hf' Hlen
                |iv g l Hv Hf' Hi Hc Hb Hq Hg Hlen Hlog
                |iv g l Hv Hf' Hi Hd Hc Hb Hg Hlen Hlog
                |iv r o' g l Hv Hf' Hd Hs Hb Hg Hlen Hlog]; simpl in *;
    try done.
  - by rewrite calls_acquisition in Hcalls.
  - by destruct (Hf e').
  - subst l.
    by rewrite unlocks_released, arms_released, disarms_released.
Qed.

Lemma settled_call_released_every_lock_witness :
  outcome (trace defaults "" ReturnsPromise oneKey
                 (failingTask ++ [UnlockSettled (Some unlockingError)]))
  = Some (Failed (ref (set (Errors.UnlockError
                              "" (Str (unlockMessage oneKey unlockingError))
                              Undefined)
                           "stack" (Str "Error: Unlocking error"))))
  ∧ unlocks (log (trace defaults "" ReturnsPromise oneKey
                        (failingTask
                         ++ [UnlockSettled (Some unlockingError)])))
    ≡ₚ [7%nat]
  ∧ disarms (log (trace defaults "" ReturnsPromise oneKey
                        (failingTask
                         ++ [UnlockSettled (Some unlockingError)])))
    = [()].
Proof.
  assert (outcome (trace defaults "" ReturnsPromise oneKey
                     (failingTask ++ [UnlockSettled (Some unlockingError)]))
          = Some (Failed (ref (set (Errors.UnlockError
                                      ""
                                      (Str (unlockMessage oneKey
                                                          unlockingError))
                                      Undefined)
                                   "stack" (Str "Error: Unlocking error")))))
    as Ho by reflexivity.
  split; [exact Ho|].
  pose proof (settled_call_released_every_lock
                defaults "" ReturnsPromise oneKey
                (failingTask ++ [UnlockSettled (Some unlockingError)]) _
                ltac:(done) Ho ltac:(done)) as (Hu & _ & _ & Hd).
  split; [exact Hu|exact Hd].
Defined.

(** ** Cancellation *)

Lemma own_put_eq (k : string) (v : Value) (ps : Props) :
  own k (put k v ps) = Some v.
Proof.
  induction ps as [|[k' v'] ps IH]; simpl.
  - by rewrite String.eqb_refl.
  - destruct (String.eqb k k') eqn:Hk; simpl; rewrite ?String.eqb_refl, ?Hk;
      done.
Qed.

Lemma get_set_eq (o : Object) (k : string) (v : Value) :
  get (set o k v) k = v.
Proof. unfold get, set. simpl. by rewrite own_put_eq. Qed.

Lemma ticks_snoc (evs : list Event) (ev : Event) :
  ticks (evs ++ [ev]) = (ticks evs + if isTick ev then 1 else 0)%nat.
Proof.
  unfold ticks. rewrite list.filter_app, length_app. f_equal.
  by destruct ev.
Qed.

Lemma trace_snoc config frames f options evs ev :
  trace config frames f options (evs ++ [ev])
  = step config frames f options (trace config frames f options evs) ev.
Proof. unfold trace, exec. by rewrite foldl_app. Qed.

Lemma step_keeps_uncancelled config frames f options s ev (n : Z) :
  (∀ iv, invocation s = Some iv →
         deferred iv ≠ Cancelled ∧ 0 ≤ extendLockCounter iv ≤ n) →
  cancels ev = false →
  0 ≤ n →
  n + (if isTick ev then 1 else 0) ≤ maxExtendLockCount config →
  ∀ iv, invocation (step config frames f options s ev) = Some iv →
        deferred iv ≠ Cancelled
        ∧ 0 ≤ extendLockCounter iv ≤ n + (if isTick ev then 1 else 0).
Proof.
  intros Hs Hev Hn Hcap.
  destruct s as [[slots|iv0|iv0|o] g l]; unfold invocation, step in *;
    simpl in *.
  - (* acquiring *)
    destruct ev as [i r|r| | |r| |r]; simpl; try done.
    destruct (slots !! i) as [[h|]|]; simpl; try done.
    destruct r as [lock|error]; [|done].
    unfold proceed. destruct (mapM id _); [|done].
    unfold start. destruct f; simpl; intros iv Hiv; simplify_eq; simpl;
      (split; [done|lia]).
  - (* executing *)
    destruct (Hs iv0 eq_refl) as (Hd & Hc0 & Hc1).
    destruct ev as [i r|r| | |r| |r]; simpl in *.
    + intros iv Hiv. simplify_eq. split; [done|lia].
    + destruct (isPending (deferred iv0)); simpl; intros iv Hiv;
        simplify_eq; simpl; (split; [|lia]); [by destruct r|done].
    + done.
    + destruct (interval iv0); simpl;
        [|intros iv Hiv; simplify_eq; split; [done|lia]].
      unfold tick. simpl.
      replace (maxExtendLockCount config <? extendLockCounter iv0 + 1)
        with false by lia.
      simpl. intros iv Hiv. simplify_eq.
      destruct (isPending (deferred iv0)); simpl; (split; [done|lia]).
    + destruct (extending iv0); simpl; intros iv Hiv; simplify_eq; simpl;
        [split; [done|lia]|].
      destruct r; [done|]. simpl. split; [done|lia].
    + destruct (isPending (deferred iv0)); simpl; intros iv Hiv;
        simplify_eq; simpl; (split; [done|lia]).
    + intros iv Hiv. simplify_eq. split; [done|lia].
  - (* releasing *)
    destruct (Hs iv0 eq_refl) as (Hd & Hc0 & Hc1).
    destruct ev as [i r|r| | |r| |r]; simpl in *;
      try (intros iv Hiv; simplify_eq; split; [done|lia]).
    + done.
    + destruct (extending iv0); simpl; intros iv Hiv; simplify_eq; simpl;
        [split; [done|lia]|].
      destruct r; [done|]. simpl. split; [done|lia].
    + destruct (settle frames options r iv0); simpl; intros iv Hiv;
        simplify_eq. split; [done|lia].
  - by destruct ev.
Qed.

Lemma trace_app config frames f options evs evs' :
  trace config frames f options (evs ++ evs')
  = exec config frames f options (trace config frames f options evs) evs'.
Proof. unfold trace, exec. by rewrite foldl_app. Qed.

(** X7: the runner cancels the task only at a tick over the cap and when an
    extension fails.  As long as the timer has fired at most
    [maxExtendLockCount] times, no extension has failed and the task's
    promise was not cancelled from the task's own side, [deferred] is not
    cancelled, and the counter is at most the number of ticks. *)
Theorem no_cancellation_within_the_cap
    (config : Config) (frames : string) (f : Task) (options : Options)
    (evs : list Event) (iv : Invocation) :
  Forall (λ ev, cancels ev = false) evs →
  Z.of_nat (ticks evs) ≤ maxExtendLockCount config →
  invocation (trace config frames f options evs) = Some iv →
  deferred iv ≠ Cancelled
  ∧ 0 ≤ extendLockCounter iv ≤ Z.of_nat (ticks evs).
Proof.
  revert iv. induction evs as [|ev evs IH] using rev_ind;
    intros iv Hok Hcap.
  - unfold trace, exec, invocation, run. simpl.
    destruct (ttl options <? minimumTtl config); [done|].
    destruct (negb (every (lockKeys options) isString)); [done|].
    unfold proceed. destruct (mapM id _); [|done].
    unfold start. destruct f; simpl; intros ?; simplify_eq; simpl;
      (split; [done|unfold ticks; simpl; lia]).
  - apply Forall_app in Hok as [Hok Hev].
    apply Forall_inv in Hev.
    rewrite ticks_snoc in Hcap. rewrite ticks_snoc, trace_snoc.
    assert (Z.of_nat (ticks evs) ≤ maxExtendLockCount config) as Hcap'
        by lia.
    intros Hiv.
    pose proof (step_keeps_uncancelled
                  config frames f options
                  (trace config frames f options evs) ev
                  (Z.of_nat (ticks evs))
                  (λ iv0 H0, IH iv0 Hok Hcap' H0) Hev) as Hstep.
    destruct (isTick ev); [destruct (Hstep ltac:(lia) ltac:(lia) iv Hiv)
                          |destruct (Hstep ltac:(lia) ltac:(lia) iv Hiv)];
      split; try done; lia.
Qed.

Lemma no_cancellation_within_the_cap_witness :
  Forall (λ ev, cancels ev = false) fourTicks
  ∧ Z.of_nat (ticks fourTicks) ≤ maxExtendLockCount defaults
  ∧ invocation (trace defaults "" ReturnsPromise oneKey fourTicks)
    = Some afterFourTicks
  ∧ deferred afterFourTicks ≠ Cancelled
  ∧ 0 ≤ extendLockCounter afterFourTicks ≤ Z.of_nat (ticks fourTicks).
Proof.
  assert (Forall (λ ev, cancels ev = false) fourTicks) as Hok.
  { repeat constructor. }
  assert (Z.of_nat (ticks fourTicks) ≤ maxExtendLockCount defaults) as Hcap.
  { by vm_compute. }
  assert (invocation (trace defaults "" ReturnsPromise oneKey fourTicks)
          = Some afterFourTicks) as Hiv.
  { vm_compute. reflexivity. }
  split; [exact Hok|]. split; [exact Hcap|]. split; [exact Hiv|].
  exact (no_cancellation_within_the_cap
           defaults "" ReturnsPromise oneKey fourTicks afterFourTicks
           Hok Hcap Hiv).
Defined.

Lemma keeps_step config frames f options s ev d :
  d ≠ Pending → d ≠ Cancelled →
  keeps d s → keeps d (step config frames f options s ev).
Proof.
  intros Hp Hc.
  destruct s as [[slots|[ls d0 c e b n q]|[ls d0 c e b n q]|o] g l];
    unfold keeps, step; simpl; [done| | |by destruct ev]; intros ->.
  - destruct ev as [i r|r| | |r| |r]; simpl; try done.
    + by destruct d.
    + by destruct d.
    + destruct b; simpl; [|done]. unfold tick. simpl.
      destruct (_ <? _); simpl; by destruct d.
    + destruct n; simpl; [done|].
      destruct r; simpl; [|done]. by destruct d.
    + by destruct d.
  - destruct ev as [i r|r| | |r| |r]; simpl; try done.
    + destruct n; simpl; [done|].
      destruct r; simpl; [|done]. by destruct d.
    + destruct r as [error|]; simpl; [by left|].
      destruct d; simpl; try done; by right.
Qed.

Lemma keeps_exec config frames f options s evs d :
  d ≠ Pending → d ≠ Cancelled →
  keeps d s → keeps d (exec config frames f options s evs).
Proof.
  intros Hp Hc. revert s.
  induction evs as [|ev evs IH]; intros s Hs; [done|].
  apply IH. by apply keeps_step.
Qed.

(** X8: once the task has fulfilled or rejected, nothing the timer does
    afterwards changes the result: ticks over the cap and failing
    extensions no longer cancel it.  The call ends with the task's own
    value or error, or with an UnlockError when the release fails. *)
Theorem settled_task_keeps_its_result
    (config : Config) (frames : string) (f : Task) (options : Options)
    (evs evs' : list Event) (iv : Invocation) (o : Outcome) :
  invocation (trace config frames f options evs) = Some iv →
  deferred iv ≠ Pending →
  deferred iv ≠ Cancelled →
  outcome (trace config frames f options (evs ++ evs')) = Some o →
  instanceOf UnlockErrorProto o ∨ taskResult (deferred iv) o.
Proof.
  intros Hiv Hp Hc Ho.
  assert (keeps (deferred iv) (trace config frames f options evs)) as Hk.
  { unfold keeps, invocation in *.
    destruct (phase (trace config frames f options evs)); by simplify_eq. }
  apply (keeps_exec config frames f options _ evs' _ Hp Hc) in Hk.
  unfold trace, exec in *. rewrite foldl_app in Ho.
  unfold keeps, outcome in *.
  destruct (phase (foldl _ (foldl _ _ evs) evs')); by simplify_eq.
Qed.

Lemma settled_task_keeps_its_result_witness :
  invocation (trace defaults "" ReturnsPromise oneKey
                    [LockSettled 0 (inl 7%nat); TaskSettled (inl (Str "ok"))])
  = Some (mkInvocation [7%nat] (Fulfilled (Str "ok")) 0
                       (mkObject ObjectProto []) true 0 0)
  ∧ outcome (trace defaults "" ReturnsPromise oneKey
                   ([LockSettled 0 (inl 7%nat); TaskSettled (inl (Str "ok"))]
                    ++ lateTrouble))
    = Some (Resolved (Str "ok")).
Proof.
  split; [reflexivity|].
  assert (outcome (trace defaults "" ReturnsPromise oneKey
                     ([LockSettled 0 (inl 7%nat);
                       TaskSettled (inl (Str "ok"))] ++ lateTrouble))
          = Some (Resolved (Str "ok"))) as Ho by reflexivity.
  destruct (settled_task_keeps_its_result
              defaults "" ReturnsPromise oneKey
              [LockSettled 0 (inl 7%nat); TaskSettled (inl (Str "ok"))]
              lateTrouble _ (Resolved (Str "ok")) eq_refl) as [Hu|Ht];
    [done|done|exact Ho|done|exact Ho].
Defined.


(** ** The ExtendLockError of a cancelled call *)

Lemma extend_lock_error_fields (frames : string) (m l stack : Value) :
  get (set (Errors.ExtendLockError frames m l) "stack" stack) "message" = m.
Proof. reflexivity. Qed.






(** ** The order of the grants *)

Lemma slotsAfter_nil {A} (hs : list Handle) (keys : list A) :
  length hs = length keys →
  map (λ _, None) keys = slotsAfter [] hs.
Proof.
  intros Hlen. apply list_eq. intros i. unfold slotsAfter.
  rewrite list_lookup_imap, list_lookup_fmap.
  destruct (hs !! i) as [h|] eqn:Hh, (keys !! i) as [k|] eqn:Hk; simpl;
    try done.
  - apply lookup_lt_Some in Hh. apply lookup_ge_None in Hk. lia.
  - apply lookup_lt_Some in Hk. apply lookup_ge_None in Hh. lia.
Qed.

Lemma slotsAfter_pending (seen : list nat) (hs : list Handle) (i : nat) :
  (i < length hs)%nat → i ∉ seen → slotsAfter seen hs !! i = Some None.
Proof.
  intros Hi Hnot. unfold slotsAfter. rewrite list_lookup_imap.
  destruct (lookup_lt_is_Some_2 hs i Hi) as [h ->]. simpl.
  by rewrite bool_decide_eq_false_2.
Qed.

Lemma slotsAfter_fill (seen : list nat) (hs : list Handle) (i : nat) :
  (i < length hs)%nat →
  <[i := Some (hs !!! i)]> (slotsAfter seen hs) = slotsAfter (seen ++ [i]) hs.
Proof.
  intros Hi. apply list_eq. intros j. unfold slotsAfter.
  destruct (decide (i = j)) as [<-|Hne].
  - rewrite list_lookup_insert_eq by (by rewrite length_imap).
    rewrite list_lookup_imap, (list_lookup_lookup_total_lt hs i Hi). simpl.
    rewrite bool_decide_eq_true_2; [done|].
    rewrite elem_of_app, list_elem_of_singleton. auto.
  - rewrite list_lookup_insert_ne by done. rewrite !list_lookup_imap.
    destruct (hs !! j) as [h|]; simpl; [|done].
    rewrite (bool_decide_ext (j ∈ seen ++ [i]) (j ∈ seen)); [done|].
    rewrite elem_of_app, list_elem_of_singleton. intuition congruence.
Qed.

Lemma slotsAfter_full (seen : list nat) (hs : list Handle) :
  (∀ j, (j < length hs)%nat → j ∈ seen) →
  mapM id (slotsAfter seen hs) = Some hs.
Proof.
  intros Hall. apply mapM_Some, Forall2_same_length_lookup_2.
  - unfold slotsAfter. by rewrite length_imap.
  - intros j x h Hx Hh. unfold slotsAfter in Hx.
    rewrite list_lookup_imap, Hh in Hx. simpl in Hx.
    rewrite bool_decide_eq_true_2 in Hx
      by (apply Hall; by apply lookup_lt_Some in Hh).
    by simplify_eq.
Qed.

Lemma slotsAfter_partial (seen : list nat) (hs : list Handle) (j : nat) :
  (j < length hs)%nat → j ∉ seen → mapM id (slotsAfter seen hs) = None.
Proof.
  intros Hj Hnot. apply mapM_None, Exists_exists.
  exists None. split; [|done].
  apply list_elem_of_In, list_elem_of_lookup. exists j.
  by apply slotsAfter_pending.
Qed.

Lemma grants_from (config : Config) (frames : string) (f : Task)
    (options : Options) (hs : list Handle) (rest seen : list nat)
    (g : list Handle) :
  rest ≠ [] →
  NoDup (seen ++ rest) →
  (∀ j, (j < length hs)%nat ↔ j ∈ seen ++ rest) →
  exec config frames f options
       (mkState (Acquiring (slotsAfter seen hs)) g (acquisition options))
       (grantsIn rest hs)
  = mkState (start config f options hs).1
            (g ++ map (λ i, hs !!! i) rest)
            (acquisition options ++ (start config f options hs).2).
Proof.
  revert seen g. induction rest as [|i rest IH]; intros seen g Hne Hnd Hall;
    [done|].
  assert ((i < length hs)%nat) as Hi.
  { apply Hall. rewrite elem_of_app, elem_of_cons. auto. }
  assert (i ∉ seen) as Hfresh.
  { apply list.NoDup_app in Hnd as (_ & Hdis & _). intros Hin.
    apply (Hdis i Hin). by left. }
  unfold exec. simpl. fold (exec config frames f options).
  unfold step at 2. simpl.
  rewrite (slotsAfter_pending seen hs i Hi Hfresh), (slotsAfter_fill _ _ _ Hi).
  unfold proceed.
  assert (NoDup ((seen ++ [i]) ++ rest)) as Hnd'.
  { by rewrite <- app_assoc. }
  assert (∀ j, (j < length hs)%nat ↔ j ∈ (seen ++ [i]) ++ rest) as Hall'.
  { intros j. by rewrite <- app_assoc. }
  destruct rest as [|k rest].
  - rewrite slotsAfter_full.
    + by destruct (start config f options hs).
    + intros j Hj. by apply Hall.
  - rewrite (slotsAfter_partial _ _ k).
    + rewrite app_nil_r.
      etrans; [exact (IH (seen ++ [i]) (g ++ [hs !!! i])
                         ltac:(done) Hnd' Hall')|].
      by rewrite <- app_assoc.
    + apply Hall. rewrite !elem_of_app, !elem_of_cons. auto.
    + apply list.NoDup_app in Hnd' as (_ & Hdis & _). intros Hin.
      apply (Hdis k Hin). by left.
Qed.

Lemma all_granted (config : Config) (frames : string) (f : Task)
    (options : Options) (order : list nat) (hs : list Handle) :
  minimumTtl config ≤ ttl options →
  wellFormedKey (lockKey options) →
  length hs = length (lockKeys options) →
  order ≡ₚ seq 0 (length hs) →
  trace config frames f options (grantsIn order hs)
  = mkState (start config f options hs).1
            (map (λ i, hs !!! i) order)
            (acquisition options ++ (start config f options hs).2).
Proof.
  intros Httl Hkey Hlen Hperm. unfold trace, run.
  replace (ttl options <? minimumTtl config) with false by lia.
  apply wellFormedKey_checked in Hkey. rewrite Hkey. simpl.
  destruct order as [|i order].
  - symmetry in Hperm. apply Permutation_nil_r in Hperm.
    destruct hs; [|done]. unfold acquisition.
    destruct (lockKeys options); [|done].
    simpl. unfold proceed. simpl.
    by destruct (start config f options []).
  - rewrite (slotsAfter_nil hs) by done. unfold proceed.
    rewrite (slotsAfter_partial [] hs i).
    + fold (acquisition options). rewrite app_nil_r.
      apply (grants_from config frames f options hs (i :: order) [] []).
      * done.
      * simpl. rewrite Hperm. apply NoDup_seq.
      * intros j. simpl. rewrite Hperm, elem_of_seq. lia.
    + assert (i ∈ seq 0 (length hs)) as Hin.
      { rewrite <- Hperm. by left. }
      apply elem_of_seq in Hin. lia.
    + apply not_elem_of_nil.
Qed.

(** X13: the locks of a call are kept in the order of its keys, whatever
    the order in which Redlock grants them.  When every key has been
    granted, each once, the task is called once; if it returns, the timer is
    armed and [locks] is the list of the locks by key. *)
Theorem locks_follow_the_keys
    (config : Config) (frames : string) (f : Task) (options : Options)
    (order : list nat) (hs : list Handle) :
  minimumTtl config ≤ ttl options →
  wellFormedKey (lockKey options) →
  length hs = length (lockKeys options) →
  order ≡ₚ seq 0 (length hs) →
  let s := trace config frames f options (grantsIn order hs) in
  granted s = map (λ i, hs !!! i) order
  ∧ calls (log s) = [()]
  ∧ ((∀ e, f ≠ Throws e) →
     ∃ iv, phase s = Executing iv
           ∧ locks iv = hs
           ∧ extendLockCounter iv = 0
           ∧ log s = acquisition options
                     ++ [CallTask; SetInterval (intervalTime config options)]).
Proof.
  intros Httl Hkey Hlen Hperm s. subst s.
  rewrite (all_granted config frames f options order hs) by done.
  simpl. split; [done|].
  unfold start. destruct f as [e|v|]; simpl.
  - split; [apply thrown_log|]. intros Hf. by destruct (Hf e).
  - split.
    + unfold calls. rewrite omap_app. fold (calls (acquisition options)).
      by rewrite calls_acquisition.
    + intros _. by eexists.
  - split.
    + unfold calls. rewrite omap_app. fold (calls (acquisition options)).
      by rewrite calls_acquisition.
    + intros _. by eexists.
Qed.

Lemma locks_follow_the_keys_witness :
  minimumTtl defaults ≤ ttl twoKeys
  ∧ [1%nat; 0%nat] ≡ₚ seq 0 (length [5%nat; 6%nat])
  ∧ granted (trace defaults "" ReturnsPromise twoKeys
                   (grantsIn [1%nat; 0%nat] [5%nat; 6%nat]))
    = [6%nat; 5%nat]
  ∧ ∃ iv, phase (trace defaults "" ReturnsPromise twoKeys
                       (grantsIn [1%nat; 0%nat] [5%nat; 6%nat]))
          = Executing iv
          ∧ locks iv = [5%nat; 6%nat].
Proof.
  assert (minimumTtl defaults ≤ ttl twoKeys) as Httl by done.
  assert (wellFormedKey (lockKey twoKeys)) as Hkey.
  { right. exists [Str "a"; Str "b"]. split; [done|].
    repeat constructor; by eexists. }
  assert ([1%nat; 0%nat] ≡ₚ seq 0 (length [5%nat; 6%nat])) as Hperm.
  { simpl. apply perm_swap. }
  split; [exact Httl|]. split; [exact Hperm|].
  pose proof (locks_follow_the_keys
                defaults "" ReturnsPromise twoKeys [1%nat; 0%nat]
                [5%nat; 6%nat] Httl Hkey eq_refl Hperm) as (Hg & _ & Hex).
  split; [exact Hg|].
  destruct Hex as (iv & Hp & Hl & _); [done|]. by exists iv.
Defined.

(** X14: a call that nothing troubles.  Every key is granted, in any order;
    the task returns a value, or a promise that settles, before the first
    tick; the release succeeds.  Then [run] ends with the task's own value
    or error, having requested one lock per key, extended none, armed and
    cleared the timer once, and called [unlock] once per lock in the order
    of the keys. *)
Theorem untroubled_call
    (config : Config) (frames : string) (options : Options)
    (order : list nat) (hs : list Handle) (v : Value) (r : Value + Value) :
  minimumTtl config ≤ ttl options →
  wellFormedKey (lockKey options) →
  length hs = length (lockKeys options) →
  order ≡ₚ seq 0 (length hs) →
  let done' := acquisition options
               ++ [CallTask; SetInterval (intervalTime config options)]
               ++ ClearInterval :: map Unlock hs in
  trace config frames (Returns v) options
        (grantsIn order hs ++ [Finally; UnlockSettled None])
  = mkState (Returned (Resolved v)) (map (λ i, hs !!! i) order) done'
  ∧ trace config frames ReturnsPromise options
          (grantsIn order hs ++ [TaskSettled r; Finally; UnlockSettled None])
    = mkState (Returned (match r with
                         | inl v' => Resolved v'
                         | inr e => Failed e
                         end))
              (map (λ i, hs !!! i) order) done'.
Proof.
  intros Httl Hkey Hlen Hperm done'. subst done'. split.
  - rewrite trace_app.
    rewrite (all_granted config frames (Returns v) options order hs) by done.
    unfold exec, step. simpl. by rewrite ahead_0, <- !app_assoc.
  - rewrite trace_app.
    rewrite (all_granted config frames ReturnsPromise options order hs)
      by done.
    unfold exec, step. simpl. rewrite ahead_0, <- !app_assoc.
    by destruct r.
Qed.

Lemma untroubled_call_witness :
  minimumTtl defaults ≤ ttl twoKeys
  ∧ [1%nat; 0%nat] ≡ₚ seq 0 (length [5%nat; 6%nat])
  ∧ unlocks (log (trace defaults "" (Returns (Str "ok")) twoKeys
                        (grantsIn [1%nat; 0%nat] [5%nat; 6%nat]
                         ++ [Finally; UnlockSettled None])))
    = [5%nat; 6%nat].
Proof.
  assert (minimumTtl defaults ≤ ttl twoKeys) as Httl by done.
  assert (wellFormedKey (lockKey twoKeys)) as Hkey.
  { right. exists [Str "a"; Str "b"]. split; [done|].
    repeat constructor; by eexists. }
  assert ([1%nat; 0%nat] ≡ₚ seq 0 (length [5%nat; 6%nat])) as Hperm.
  { simpl. apply perm_swap. }
  split; [exact Httl|]. split; [exact Hperm|].
  pose proof (untroubled_call
                defaults "" twoKeys [1%nat; 0%nat] [5%nat; 6%nat]
                (Str "ok") (inl (Str "ok")) Httl Hkey eq_refl Hperm)
    as (Hv & _).
  rewrite Hv. reflexivity.
Defined.
